(** * libcore_icu_NativeCollation.cpp: the JNI glue between
      libcore.icu.NativeCollation and ICU's collation engine.

    The file embeds the [CollationElements] class (the pinned string
    of a collation element iterator) and the native methods that the
    properties below talk about.  JNI and ICU are outside the file;
    their answers are supplied by a [Runtime] record, and every call
    that matters for resource accounting is appended to a log.  The
    log plays the role of [JNIEnv* env]: it is threaded through every
    function in call order. *)

From Stdlib Require Import ZArith Lia.
From stdpp Require Import base option list gmap strings.

Local Open Scope Z_scope.

(** ** Vocabulary of the two foreign interfaces *)

(** A [jstring] is an object reference, a [jchar] a UTF-16 code unit,
    a [jlong] a 64-bit integer that the Java side treats as a handle. *)
Definition jstring := Z.
Definition jchar := Z.
Definition jint := Z.
Definition jlong := Z.
Definition uint8_t := Z.

(** [UCollator*] is only ever passed on to ICU, so it stays the
    integer it was cast from; [UCollationElements*] is tested against
    NULL, so the nullable pointer is an [option]. *)
Definition UCollator := Z.
Definition UCollationElements := positive.

Definition UErrorCode := Z.
Definition U_ZERO_ERROR : UErrorCode := 0.
Definition U_ILLEGAL_ARGUMENT_ERROR : UErrorCode := 1.

(** Calls that leave the file, in the order they are made. *)
Inductive event : Type :=
  | EGetStringChars (s : jstring) (res : option (list jchar))
  | EReleaseStringChars (s : option jstring) (chars : list jchar)
  | ENewGlobalRef (s : jstring) (res : option jstring)
  | EDeleteGlobalRef (ref : option jstring)
  | Eucol_openElements (coll : UCollator) (text : list jchar) (len : Z)
                       (res : option UCollationElements) (status : UErrorCode)
  | Eucol_setText (elems : UCollationElements) (text : list jchar) (len : Z)
                  (status : UErrorCode)
  | Eucol_closeElements (elems : UCollationElements)
  | EmaybeThrowIcuException (fn : string) (status : UErrorCode)
  | EScopedStringChars (s : jstring) (res : option (list jchar))
  | EScopedStringChars_dtor (s : jstring)
  | EScopedUtfChars (s : jstring) (res : option string)
  | EScopedUtfChars_dtor (s : jstring)
  | Enew_CollationElements (addr : positive)
  | Edelete_CollationElements (addr : positive)
  | Eucol_getSortKey (coll : UCollator) (capacity : Z) (needed : Z)
  | Enew_uint8_array (size : Z)
  | ENewByteArray (size : Z)
  | Eucol_open (locale : string) (res : Z) (status : UErrorCode)
  | Eucol_openRules (rules : list jchar) (len : Z) (mode strength : jint)
                    (res : Z) (status : UErrorCode).

Definition JNIEnv := list event.

(** What the virtual machine and ICU answer.  The answers of the
    stateful calls may depend on everything that happened before. *)
Record Runtime : Type := {
  GetStringChars : JNIEnv -> jstring -> option (list jchar);
  NewGlobalRef : JNIEnv -> jstring -> option jstring;
  GetStringLength : jstring -> Z;
  (* ScopedStringChars(env, s).get() and ScopedUtfChars(env, s).c_str() *)
  ScopedStringChars_get : JNIEnv -> jstring -> option (list jchar);
  ScopedUtfChars_c_str : JNIEnv -> jstring -> option string;
  (* ICU *)
  ucol_openElements :
    JNIEnv -> UCollator -> list jchar -> Z ->
    option UCollationElements * UErrorCode;
  ucol_setText :
    JNIEnv -> UCollationElements -> list jchar -> Z -> UErrorCode;
  (* arguments: collator, source, source length, capacity of the result
     buffer; returns the size it reports and the bytes it stored at the
     start of the buffer *)
  ucol_getSortKey :
    UCollator -> list jchar -> Z -> Z -> N * list uint8_t;
  ucol_strcoll : UCollator -> list jchar -> Z -> list jchar -> Z -> jint;
  ucol_open : JNIEnv -> string -> Z * UErrorCode;
  ucol_openRules :
    JNIEnv -> list jchar -> Z -> jint -> jint -> Z * UErrorCode;
  (* contents of [n] bytes of memory nobody has written yet *)
  uninitialized : Z -> list uint8_t
}.

(** ** class CollationElements *)

Record CollationElements : Type := {
  mElements : option UCollationElements;
  mString : option jstring;
  mChars : option (list jchar)
}.

(** The constructor: all three members NULL. *)
Definition CollationElements_new : CollationElements :=
  {| mElements := None; mString := None; mChars := None |}.

(** [CollationElements::get]. *)
Definition get (this : CollationElements) : option UCollationElements :=
  mElements this.

Section Methods.
Variable rt : Runtime.

(** [CollationElements::release] (lines 65-76): closes the engine
    iterator if asked to, and gives back the pin and the global
    reference if a pin is held.  [mElements] is left as it is. *)
Definition release (this : CollationElements) (closeCollator : bool)
    (env : JNIEnv) : CollationElements * JNIEnv :=
  let env :=
    match mElements this with
    | Some e => if closeCollator then env ++ [Eucol_closeElements e] else env
    | None => env
    end in
  match mChars this with
  | Some chars =>
      ({| mElements := mElements this; mString := None; mChars := None |},
       env ++ [EReleaseStringChars (mString this) chars;
               EDeleteGlobalRef (mString this)])
  | None => (this, env)
  end.

(** [CollationElements::start] (lines 43-63).  The result is the
    returned status, the object after the call, and the log. *)
Definition start (this : CollationElements) (string : jstring)
    (collator : UCollator) (env : JNIEnv)
    : UErrorCode * CollationElements * JNIEnv :=
  let '(this, env) := release this false env in
  let chars := GetStringChars rt env string in
  let env := env ++ [EGetStringChars string chars] in
  match chars with
  | Some c =>
      let ref := NewGlobalRef rt env string in
      let env := env ++ [ENewGlobalRef string ref] in
      let size := GetStringLength rt string in
      match mElements this with
      | None =>
          let '(e, status) := ucol_openElements rt env collator c size in
          (status,
           {| mElements := e; mString := ref; mChars := Some c |},
           env ++ [Eucol_openElements collator c size e status])
      | Some e =>
          let status := ucol_setText rt env e c size in
          (status,
           {| mElements := Some e; mString := ref; mChars := Some c |},
           env ++ [Eucol_setText e c size status])
      end
  | None =>
      (U_ILLEGAL_ARGUMENT_ERROR,
       {| mElements := mElements this; mString := mString this;
          mChars := None |},
       env)
  end.
End Methods.

(** ** The native methods *)

(** The [CollationElements] objects that [new] has handed out and
    [delete] has not yet taken back, by address. *)
Record World : Type := {
  heap : gmap positive CollationElements;
  jni : JNIEnv
}.

(** The two casts from a handle (lines 84-90). *)
Definition toCollator (address : jlong) : UCollator := address.

(** Dereferencing the result is defined only while the object lives. *)
Definition toCollationElements (w : World) (address : jlong)
    : option (positive * CollationElements) :=
  match address with
  | Zpos p => this ← heap w !! p; Some (p, this)
  | _ => None
  end.

(** [operator new]: an address that is not in use. *)
Definition operator_new (h : gmap positive CollationElements) : positive :=
  fresh (dom h).

Section NativeMethods.
Variable rt : Runtime.

(** Lines 96-100.  [None] stands for undefined behaviour: the handle
    does not point to a live object. *)
Definition NativeCollation_closeElements (address : jlong) (w : World)
    : option World :=
  '(p, elements) ← toCollationElements w address;
  let '(_, env) := release elements true (jni w) in
  Some {| heap := delete p (heap w);
          jni := env ++ [Edelete_CollationElements p] |}.

(** Lines 102-112.  The destructors of the two scoped strings run in
    reverse order of construction. *)
Definition NativeCollation_compare (address : jlong)
    (javaLhs javaRhs : jstring) (env : JNIEnv) : jint * JNIEnv :=
  let lhs := ScopedStringChars_get rt env javaLhs in
  let env := env ++ [EScopedStringChars javaLhs lhs] in
  match lhs with
  | None => (0, env ++ [EScopedStringChars_dtor javaLhs])
  | Some l =>
      let rhs := ScopedStringChars_get rt env javaRhs in
      let env := env ++ [EScopedStringChars javaRhs rhs] in
      match rhs with
      | None =>
          (0, env ++ [EScopedStringChars_dtor javaRhs;
                      EScopedStringChars_dtor javaLhs])
      | Some r =>
          (ucol_strcoll rt (toCollator address)
             l (GetStringLength rt javaLhs) r (GetStringLength rt javaRhs),
           env ++ [EScopedStringChars_dtor javaRhs;
                   EScopedStringChars_dtor javaLhs])
      end
  end.

(** Lines 121-135.  On the failing path the [UniquePtr] deletes the
    new object; the class has no destructor, so nothing else runs. *)
Definition NativeCollation_getCollationElementIterator (address : jlong)
    (javaSource : jstring) (w : World) : jlong * World :=
  let source := ScopedStringChars_get rt (jni w) javaSource in
  let env := jni w ++ [EScopedStringChars javaSource source] in
  match source with
  | None =>
      (-1, {| heap := heap w;
              jni := env ++ [EScopedStringChars_dtor javaSource] |})
  | Some _ =>
      let p := operator_new (heap w) in
      let env := env ++ [Enew_CollationElements p] in
      let '(status, ce, env) :=
        start rt CollationElements_new javaSource (toCollator address) env in
      let env := env ++ [EmaybeThrowIcuException "ucol_openElements" status] in
      if decide (status = U_ZERO_ERROR) then
        (Zpos p, {| heap := <[p := ce]> (heap w);
                    jni := env ++ [EScopedStringChars_dtor javaSource] |})
      else
        (0, {| heap := heap w;
               jni := env ++ [Edelete_CollationElements p;
                              EScopedStringChars_dtor javaSource] |})
  end.

(** [uint8_t byteArray[128]]. *)
Definition sizeof_byteArray : Z := 128.

(** The buffer after ICU stored [stored] at its start. *)
Definition buffer_store (stored buffer : list uint8_t) : list uint8_t :=
  stored ++ drop (length stored) buffer.

(** Lines 151-174.  The result is the contents of the new byte
    array; [None] is the NULL return.  ICU reports a size, which is
    not negative, so the conversions between [int32_t] and [size_t]
    leave it as it is. *)
Definition NativeCollation_getSortKey (address : jlong)
    (javaSource : jstring) (env : JNIEnv)
    : option (list uint8_t) * JNIEnv :=
  let source := ScopedStringChars_get rt env javaSource in
  let env := env ++ [EScopedStringChars javaSource source] in
  match source with
  | None => (None, env ++ [EScopedStringChars_dtor javaSource])
  | Some src =>
      let collator := toCollator address in
      let size := GetStringLength rt javaSource in
      let byteArray := uninitialized rt sizeof_byteArray in
      let '(needed, stored) :=
        ucol_getSortKey rt collator src size (sizeof_byteArray - 1) in
      let byteArraySize := Z.of_N needed in
      let usedByteArray := buffer_store stored byteArray in
      let env :=
        env ++ [Eucol_getSortKey collator (sizeof_byteArray - 1)
                                 byteArraySize] in
      let '(byteArraySize, usedByteArray, env) :=
        if decide (byteArraySize > sizeof_byteArray - 1) then
          let largerByteArray := uninitialized rt (byteArraySize + 1) in
          let env := env ++ [Enew_uint8_array (byteArraySize + 1)] in
          let '(needed2, stored2) :=
            ucol_getSortKey rt collator src size byteArraySize in
          (Z.of_N needed2, buffer_store stored2 largerByteArray,
           env ++ [Eucol_getSortKey collator byteArraySize
                                    (Z.of_N needed2)])
        else (byteArraySize, usedByteArray, env) in
      if decide (byteArraySize = 0) then
        (None, env ++ [EScopedStringChars_dtor javaSource])
      else
        (Some (take (Z.to_nat byteArraySize) usedByteArray),
         env ++ [ENewByteArray byteArraySize;
                 EScopedStringChars_dtor javaSource])
  end.

(** Lines 183-193. *)
Definition NativeCollation_openCollator (javaLocaleName : jstring)
    (env : JNIEnv) : jlong * JNIEnv :=
  let localeChars := ScopedUtfChars_c_str rt env javaLocaleName in
  let env := env ++ [EScopedUtfChars javaLocaleName localeChars] in
  match localeChars with
  | None => (0, env ++ [EScopedUtfChars_dtor javaLocaleName])
  | Some locale =>
      let '(c, status) := ucol_open rt env locale in
      let env := env ++ [Eucol_open locale c status] in
      (c, env ++ [EmaybeThrowIcuException "ucol_open" status;
                  EScopedUtfChars_dtor javaLocaleName])
  end.

(** Lines 195-205. *)
Definition NativeCollation_openCollatorFromRules (javaRules : jstring)
    (mode strength : jint) (env : JNIEnv) : jlong * JNIEnv :=
  let rules := ScopedStringChars_get rt env javaRules in
  let env := env ++ [EScopedStringChars javaRules rules] in
  match rules with
  | None => (-1, env ++ [EScopedStringChars_dtor javaRules])
  | Some r =>
      let len := GetStringLength rt javaRules in
      let '(c, status) := ucol_openRules rt env r len mode strength in
      let env := env ++ [Eucol_openRules r len mode strength c status] in
      (c, env ++ [EmaybeThrowIcuException "ucol_openRules" status;
                  EScopedStringChars_dtor javaRules])
  end.

(** Lines 237-244.  The collator passed to [start] is NULL. *)
Definition NativeCollation_setText (address : jlong) (javaSource : jstring)
    (w : World) : option World :=
  let source := ScopedStringChars_get rt (jni w) javaSource in
  let env := jni w ++ [EScopedStringChars javaSource source] in
  match source with
  | None =>
      Some {| heap := heap w;
              jni := env ++ [EScopedStringChars_dtor javaSource] |}
  | Some _ =>
      '(p, this) ← toCollationElements w address;
      let '(status, this, env) := start rt this javaSource 0 env in
      Some {| heap := <[p := this]> (heap w);
              jni := env ++ [EmaybeThrowIcuException "ucol_setText" status;
                             EScopedStringChars_dtor javaSource] |}
  end.
End NativeMethods.

(** ** The life of one iterator

    An iterator object sits at address [p]; the operations a caller
    can apply to it are the [start] method, and the native methods
    [setText] and [closeElements] on its handle. *)

Inductive op : Type :=
  | OpStart (string : jstring) (collator : UCollator)
  | OpSetText (javaSource : jstring)
  | OpClose.

Definition just_constructed (p : positive) : World :=
  {| heap := {[ p := CollationElements_new ]}; jni := [] |}.

Section Lifecycle.
Variable rt : Runtime.

(** One operation on the iterator at [p]; [None] when the iterator
    has been deleted and the operation would dereference it. *)
Definition exec_op (p : positive) (o : op) (w : World) : option World :=
  match o with
  | OpStart string collator =>
      '(q, this) ← toCollationElements w (Zpos p);
      let '(_, this, env) := start rt this string collator (jni w) in
      Some {| heap := <[q := this]> (heap w); jni := env |}
  | OpSetText javaSource => NativeCollation_setText rt (Zpos p) javaSource w
  | OpClose => NativeCollation_closeElements (Zpos p) w
  end.

Fixpoint exec_ops (p : positive) (ops : list op) (w : World)
    : option World :=
  match ops with
  | [] => Some w
  | o :: ops => w' ← exec_op p o w; exec_ops p ops w'
  end.
End Lifecycle.

(** ** Accounting of pins and global references in a log *)

Definition pin_delta (e : event) : Z :=
  match e with
  | EGetStringChars _ (Some _) => 1
  | EReleaseStringChars _ _ => -1
  | _ => 0
  end.

Definition ref_delta (e : event) : Z :=
  match e with
  | ENewGlobalRef _ (Some _) => 1
  | EDeleteGlobalRef (Some _) => -1
  | _ => 0
  end.

Definition balance (delta : event -> Z) (l : list event) : Z :=
  foldr (fun e n => delta e + n) 0 l.

(** Pinned character arrays, and global references, that the log has
    acquired and not given back. *)
Definition pins_held : JNIEnv -> Z := balance pin_delta.
Definition refs_held : JNIEnv -> Z := balance ref_delta.

Definition acquires_pin (e : event) : bool :=
  match e with
  | EGetStringChars _ (Some _) => true
  | _ => false
  end.

(** Replays a log from [pins] pinned arrays and [refs] references:
    neither count leaves 0..1, and a pin is only taken when nothing
    is held. *)
Fixpoint ledger_ok (pins refs : Z) (l : list event) : bool :=
  match l with
  | [] => true
  | e :: l =>
      let pins' := pins + pin_delta e in
      let refs' := refs + ref_delta e in
      (0 <=? pins') && (pins' <=? 1) && (0 <=? refs') && (refs' <=? 1)
      && (if acquires_pin e then (pins =? 0) && (refs =? 0) else true)
      && ledger_ok pins' refs' l
  end.

(** Events that touch neither a pin nor a reference. *)
Definition neutral (e : event) : bool :=
  (pin_delta e =? 0) && (ref_delta e =? 0) && negb (acquires_pin e).

Definition pin_count (this : CollationElements) : Z :=
  match mChars this with Some _ => 1 | None => 0 end.
Definition ref_count (this : CollationElements) : Z :=
  match mString this with Some _ => 1 | None => 0 end.

(** A reference is only ever held together with a pin. *)
Definition coherent (this : CollationElements) : Prop :=
  mChars this = None -> mString this = None.

(** The log of a world agrees with what the iterator at [p] holds;
    once the iterator is gone nothing is held. *)
Definition books_balanced (p : positive) (w : World) : Prop :=
  ledger_ok 0 0 (jni w) = true
  /\ match heap w !! p with
     | Some this =>
         coherent this
         /\ pins_held (jni w) = pin_count this
         /\ refs_held (jni w) = ref_count this
     | None => pins_held (jni w) = 0 /\ refs_held (jni w) = 0
     end.

(** ** Sort keys as byte strings *)

(** Lexicographic order on unsigned bytes, a proper prefix first. *)
Fixpoint bytes_compare (a b : list uint8_t) : comparison :=
  match a, b with
  | [], [] => Eq
  | [], _ :: _ => Lt
  | _ :: _, [] => Gt
  | x :: a, y :: b =>
      match x ?= y with
      | Eq => bytes_compare a b
      | c => c
      end
  end.

(** The ordering a collation result stands for: negative is less,
    zero is equal, positive is greater. *)
Definition ordering_of (r : jint) : comparison := r ?= 0.

(** Modelled from the spec: [ucol_getSortKey] is ICU's and not part of
    the source.  The spec describes the encoder the code relies on:
    the call reports the needed size even on overflow, and a buffer
    that is large enough receives the whole key.  [key] is that key
    for one collator and source. *)
Definition sort_key_engine (rt : Runtime) (c : UCollator)
    (src : list jchar) (len : Z) (key : list uint8_t) : Prop :=
  forall capacity,
    fst (ucol_getSortKey rt c src len capacity) = N.of_nat (length key)
    /\ (Z.of_nat (length key) <= capacity ->
        snd (ucol_getSortKey rt c src len capacity) = key).

(** Modelled from the spec: the collation engine behind
    [ucol_getSortKey] and [ucol_strcoll] is ICU, which is not part of
    the source.  The spec's data model defines a sort key as a byte
    sequence such that, for a fixed collator, the binary order of the
    keys of two strings is the order that comparing the strings
    gives. *)
Definition engine_keys_order_as_strcoll (rt : Runtime) (c : UCollator)
    : Prop :=
  forall ta la tb lb ka kb,
    sort_key_engine rt c ta la ka ->
    sort_key_engine rt c tb lb kb ->
    bytes_compare ka kb = ordering_of (ucol_strcoll rt c ta la tb lb).

(** The value of [byteArraySize] when the code tests it against 0:
    what the first call reported, or what the second call reported if
    there was one. *)
Definition computed_key_length (rt : Runtime) (c : UCollator)
    (src : list jchar) (len : Z) : Z :=
  let n := Z.of_N (ucol_getSortKey rt c src len (sizeof_byteArray - 1)).1 in
  if decide (n > sizeof_byteArray - 1)
  then Z.of_N (ucol_getSortKey rt c src len n).1
  else n.

(** A string that reads the same whenever it is read. *)
Definition readable (rt : Runtime) (s : jstring) (text : list jchar) : Prop :=
  forall env, ScopedStringChars_get rt env s = Some text.

(** One encode into a buffer of [capacity] bytes, with no retry. *)
Definition direct_encode (rt : Runtime) (c : UCollator) (src : list jchar)
    (len : Z) (capacity : Z) : list uint8_t :=
  let '(needed, stored) := ucol_getSortKey rt c src len capacity in
  take (N.to_nat needed) (buffer_store stored (uninitialized rt capacity)).

(** ** A small runtime to run the code on

    String handle [n > 0] is a readable string of [n] letters; other
    handles cannot be read.  The sort key of a text is the text
    followed by a zero byte, and comparison is comparison of keys.
    Creating an iterator for the NULL collator fails. *)

Definition demo_text (s : jstring) : option (list jchar) :=
  if decide (0 < s) then Some (replicate (Z.to_nat s) 97) else None.

Definition demo_key (src : list jchar) : list uint8_t := src ++ [0].

Definition jint_of (c : comparison) : jint :=
  match c with Lt => -1 | Eq => 0 | Gt => 1 end.

Definition demo_rt : Runtime := {|
  GetStringChars := fun _ s => demo_text s;
  NewGlobalRef := fun _ s => Some (s + 1000);
  GetStringLength := fun s => Z.max 0 s;
  ScopedStringChars_get := fun _ s => demo_text s;
  ScopedUtfChars_c_str := fun _ s => if decide (0 < s) then Some "en_US" else None;
  ucol_openElements := fun _ coll _ _ =>
    if decide (coll = 0) then (None, U_ILLEGAL_ARGUMENT_ERROR)
    else (Some 7%positive, U_ZERO_ERROR);
  ucol_setText := fun _ _ _ _ => U_ZERO_ERROR;
  ucol_getSortKey := fun _ src _ capacity =>
    (N.of_nat (length (demo_key src)), take (Z.to_nat capacity) (demo_key src));
  ucol_strcoll := fun _ l _ r _ =>
    jint_of (bytes_compare (demo_key l) (demo_key r));
  ucol_open := fun _ _ => (4096, U_ZERO_ERROR);
  ucol_openRules := fun _ _ _ _ _ => (8192, U_ZERO_ERROR);
  uninitialized := fun n => replicate (Z.to_nat n) 170
|}.

(** An iterator bound to string 3, as [start] leaves it. *)
Definition demo_bound : CollationElements :=
  {| mElements := Some 7%positive; mString := Some 1003;
     mChars := Some [97; 97; 97] |}.

(** A caller's session with one iterator: bind, rebind, a rebind that
    cannot pin, an unreadable setText, a rebind, close. *)
Definition demo_ops : list op :=
  [OpStart 3 4096; OpSetText 5; OpStart 0 0; OpSetText 0; OpSetText 2;
   OpClose].

(** A world whose only object is [demo_bound], at address 1. *)
Definition demo_world : World :=
  {| heap := {[ 1%positive := demo_bound ]}; jni := [] |}.

(** Calls to [ucol_openElements] in a log. *)
Definition is_openElements (e : event) : bool :=
  match e with
  | Eucol_openElements _ _ _ _ _ => true
  | _ => false
  end.

Definition engines_opened (l : JNIEnv) : nat :=
  length (List.filter is_openElements l).

(** ** Further accounting over a log *)

(** Engine iterators that ICU has handed out and not yet closed. *)
Definition engine_delta (e : event) : Z :=
  match e with
  | Eucol_openElements _ _ _ (Some _) _ => 1
  | Eucol_closeElements _ => -1
  | _ => 0
  end.

Definition engines_held : JNIEnv -> Z := balance engine_delta.

Definition engine_count (this : CollationElements) : Z :=
  match mElements this with Some _ => 1 | None => 0 end.

(** The pinned array and the global reference in hand, event by
    event: GetStringChars and NewGlobalRef put their result in hand,
    ReleaseStringChars and DeleteGlobalRef empty it. *)
Definition held_step (h : option (list Z) * option Z) (e : event)
    : option (list Z) * option Z :=
  match e with
  | EGetStringChars _ (Some c) => (Some c, h.2)
  | ENewGlobalRef _ (Some g) => (h.1, Some g)
  | EReleaseStringChars _ _ => (None, h.2)
  | EDeleteGlobalRef _ => (h.1, None)
  | _ => h
  end.

Definition held_after (h : option (list Z) * option Z) (l : JNIEnv)
    : option (list Z) * option Z :=
  foldl held_step h l.

(** A release names what is in hand: ReleaseStringChars the pinned
    array together with the reference, DeleteGlobalRef the reference. *)
Definition release_matches (h : option (list Z) * option Z) (e : event)
    : bool :=
  match e with
  | EReleaseStringChars g c => bool_decide (h = (Some c, g))
  | EDeleteGlobalRef g => bool_decide (h.2 = g)
  | _ => true
  end.

Fixpoint releases_match (h : option (list Z) * option Z) (l : JNIEnv)
    : bool :=
  match l with
  | [] => true
  | e :: l => release_matches h e && releases_match (held_step h e) l
  end.

(** The events a native method adds around the calls of the class:
    scoped strings, the exception check, [new] and [delete]. *)
Definition bookkeeping (e : event) : bool :=
  match e with
  | EScopedStringChars _ _ | EScopedStringChars_dtor _
  | EmaybeThrowIcuException _ _
  | Enew_CollationElements _ | Edelete_CollationElements _ => true
  | _ => false
  end.

(** The resources a log holds beyond a base line are those of the
    object. *)
Definition holds_from (P R E : Z) (o : option CollationElements)
    (env : JNIEnv) : Prop :=
  pins_held env = P + match o with Some t => pin_count t | None => 0 end
  /\ refs_held env = R + match o with Some t => ref_count t | None => 0 end
  /\ engines_held env
     = E + match o with Some t => engine_count t | None => 0 end
  /\ match o with Some t => coherent t | None => True end.

(** A runtime in which string 5 can be read by a scoped string but
    cannot be pinned by GetStringChars; otherwise as [demo_rt]. *)
Definition flaky_rt : Runtime := {|
  GetStringChars := fun _ s => if decide (s = 5) then None else demo_text s;
  NewGlobalRef := NewGlobalRef demo_rt;
  GetStringLength := GetStringLength demo_rt;
  ScopedStringChars_get := ScopedStringChars_get demo_rt;
  ScopedUtfChars_c_str := ScopedUtfChars_c_str demo_rt;
  ucol_openElements := ucol_openElements demo_rt;
  ucol_setText := ucol_setText demo_rt;
  ucol_getSortKey := ucol_getSortKey demo_rt;
  ucol_strcoll := ucol_strcoll demo_rt;
  ucol_open := ucol_open demo_rt;
  ucol_openRules := ucol_openRules demo_rt;
  uninitialized := uninitialized demo_rt
|}.

(** A world with no iterator and an empty log. *)
Definition empty_world : World := {| heap := ∅; jni := [] |}.

(** * Properties *)

(** ** Logs *)

Lemma balance_app (d : event -> Z) (a b : list event) :
  balance d (a ++ b) = balance d a + balance d b.
Proof.
  unfold balance. induction a as [|e a IH]; simpl; [reflexivity|].
  rewrite IH. lia.
Qed.

Lemma ledger_ok_app (a b : list event) : forall pins refs,
  ledger_ok pins refs (a ++ b)
  = ledger_ok pins refs a
    && ledger_ok (pins + pins_held a) (refs + refs_held a) b.
Proof.
  induction a as [|e a IH]; intros pins refs; simpl.
  - unfold pins_held, refs_held; simpl. by rewrite !Z.add_0_r.
  - rewrite IH. unfold pins_held, refs_held; simpl.
    rewrite !Z.add_assoc, !andb_assoc. reflexivity.
Qed.

(** A log that replays correctly never held more than one pin or one
    reference, and took each pin with nothing in hand. *)
Lemma ledger_ok_prefix (l : list event) : forall pins refs t,
  ledger_ok pins refs l = true ->
  0 <= pins <= 1 -> 0 <= refs <= 1 ->
  t `prefix_of` l ->
  0 <= pins + pins_held t <= 1 /\ 0 <= refs + refs_held t <= 1.
Proof.
  induction l as [|e l IH]; intros pins refs t Hok Hp Hr Ht.
  - apply prefix_nil_inv in Ht as ->. unfold pins_held, refs_held; simpl. lia.
  - destruct t as [|e' t].
    + unfold pins_held, refs_held; simpl. lia.
    + apply prefix_cons_inv_1 in Ht as He. subst e'.
      apply prefix_cons_inv_2 in Ht.
      simpl in Hok. repeat (apply andb_true_iff in Hok as [Hok ?]).
      specialize (IH (pins + pin_delta e) (refs + ref_delta e) t).
      unfold pins_held, refs_held in *; simpl.
      rewrite !Z.add_assoc. apply IH; [assumption|lia|lia|assumption].
Qed.

Lemma ledger_ok_acquire (l : list event) : forall pins refs t s c,
  ledger_ok pins refs l = true ->
  (t ++ [EGetStringChars s (Some c)]) `prefix_of` l ->
  pins + pins_held t = 0 /\ refs + refs_held t = 0.
Proof.
  induction l as [|e l IH]; intros pins refs t s c Hok Ht.
  - apply prefix_nil_inv in Ht. by destruct t.
  - simpl in Hok. repeat (apply andb_true_iff in Hok as [Hok ?]).
    destruct t as [|e' t]; simpl in Ht.
    + apply prefix_cons_inv_1 in Ht as <-. simpl in *.
      unfold pins_held, refs_held; simpl. lia.
    + apply prefix_cons_inv_1 in Ht as He. subst e'.
      apply prefix_cons_inv_2 in Ht.
      specialize (IH _ _ _ _ _ ltac:(eassumption) Ht).
      unfold pins_held, refs_held in *; simpl. lia.
Qed.

(** ** The class keeps its books *)

Lemma release_ledger (this : CollationElements) (b : bool) (env : JNIEnv) :
  coherent this ->
  exists evs,
    snd (release this b env) = env ++ evs
    /\ ledger_ok (pin_count this) (ref_count this) evs = true
    /\ pin_count this + pins_held evs = 0
    /\ ref_count this + refs_held evs = 0
    /\ fst (release this b env)
       = {| mElements := mElements this; mString := None; mChars := None |}.
Proof.
  intros Hco. destruct this as [el str ch]. unfold coherent in Hco.
  unfold release, pin_count, ref_count; simpl in *.
  destruct ch as [c|]; [|rewrite (Hco eq_refl)];
    destruct el as [e|], b, str as [g|]; simpl;
    rewrite <- ?app_assoc; eexists;
    (split; [try reflexivity; symmetry; apply app_nil_r|]);
    by vm_compute.
Qed.

Lemma start_ledger (rt : Runtime) (this : CollationElements) (s : jstring)
    (c : UCollator) (env : JNIEnv) :
  coherent this ->
  exists evs,
    (start rt this s c env).2 = env ++ evs
    /\ ledger_ok (pin_count this) (ref_count this) evs = true
    /\ pin_count this + pins_held evs = pin_count (start rt this s c env).1.2
    /\ ref_count this + refs_held evs = ref_count (start rt this s c env).1.2
    /\ coherent (start rt this s c env).1.2.
Proof.
  intros Hco. unfold start.
  destruct (release_ledger this false env Hco)
    as (evs & Henv & Hok & Hp & Hr & Hthis).
  destruct (release this false env) as [this1 env1]; simpl in *.
  subst this1 env1; simpl.
  assert (Hmid : forall tl,
    ledger_ok 0 0 tl = true ->
    ledger_ok (pin_count this) (ref_count this) (evs ++ tl) = true).
  { intros tl Htl. rewrite ledger_ok_app, Hok, Hp, Hr. exact Htl. }
  assert (Hbal : forall d tl, balance d (evs ++ tl) = balance d evs + balance d tl)
    by (intros; apply balance_app).
  unfold pins_held, refs_held in *.
  destruct (GetStringChars rt (env ++ evs) s) as [chars|]; simpl.
  - destruct (NewGlobalRef rt _ s) as [g|]; simpl;
      destruct (mElements this) as [e|]; simpl;
      try destruct (ucol_openElements rt _ c chars _) as [e' st]; simpl;
      rewrite <- ?app_assoc; simpl;
      (eexists; split; [reflexivity|]);
      (split; [by apply Hmid|]); rewrite !Hbal; simpl;
      unfold pin_count, ref_count, coherent in *; simpl;
      (split; [lia|]); (split; [lia|]); congruence.
  - exists (evs ++ [EGetStringChars s None]).
    rewrite <- app_assoc. split; [reflexivity|].
    split; [by apply Hmid|]. rewrite !Hbal; simpl.
    unfold pin_count, ref_count, coherent in *; simpl.
    split; [lia|]. split; [lia|]. reflexivity.
Qed.

Lemma ledger_extend (env evs : JNIEnv) (P R : Z) :
  ledger_ok 0 0 env = true ->
  pins_held env = P -> refs_held env = R ->
  ledger_ok P R evs = true ->
  ledger_ok 0 0 (env ++ evs) = true.
Proof.
  intros Hok <- <- Hevs. rewrite ledger_ok_app, Hok. exact Hevs.
Qed.

Lemma held_app (env evs : JNIEnv) :
  pins_held (env ++ evs) = pins_held env + pins_held evs
  /\ refs_held (env ++ evs) = refs_held env + refs_held evs.
Proof. split; apply balance_app. Qed.

Lemma ledger_ok_neutral (l : list event) (P R : Z) :
  forallb neutral l = true -> 0 <= P <= 1 -> 0 <= R <= 1 ->
  ledger_ok P R l = true /\ pins_held l = 0 /\ refs_held l = 0.
Proof.
  induction l as [|e l IH]; intros Hn HP HR; [done|].
  simpl in Hn. apply andb_true_iff in Hn as [He Hl].
  destruct (IH Hl HP HR) as (Hok & Hp & Hr).
  unfold neutral in He.
  apply andb_true_iff in He as [He Hacq].
  apply andb_true_iff in He as [Hpd Hrd].
  apply Z.eqb_eq in Hpd, Hrd. apply negb_true_iff in Hacq.
  unfold pins_held, refs_held in *; simpl.
  rewrite Hpd, Hrd, Hacq, !Z.add_0_r, Hok, Hp, Hr.
  split; [|lia].
  rewrite !andb_true_r, !andb_true_iff, !Z.leb_le. lia.
Qed.

Lemma pin_count_range (this : CollationElements) :
  0 <= pin_count this <= 1 /\ 0 <= ref_count this <= 1.
Proof.
  unfold pin_count, ref_count.
  destruct (mChars this), (mString this); lia.
Qed.

(** Appending neutral events keeps the books. *)
Lemma books_neutral (p : positive) (w : World) (evs : list event) :
  books_balanced p w -> forallb neutral evs = true ->
  books_balanced p {| heap := heap w; jni := jni w ++ evs |}.
Proof.
  intros [Hok Hst] Hn. unfold books_balanced; simpl.
  destruct (held_app (jni w) evs) as [-> ->].
  destruct (heap w !! p) as [this|].
  - destruct Hst as (Hco & Hp & Hr).
    destruct (pin_count_range this) as [HP HR].
    destruct (ledger_ok_neutral evs _ _ Hn HP HR) as (Hevs & -> & ->).
    split; [by eapply ledger_extend|]. repeat split; [done|lia|lia].
  - destruct Hst as (Hp & Hr).
    destruct (ledger_ok_neutral evs 0 0 Hn ltac:(lia) ltac:(lia))
      as (Hevs & -> & ->).
    split; [by eapply ledger_extend|]. lia.
Qed.

(** [start] on the live iterator, from any point of a balanced log. *)
Lemma books_start (rt : Runtime) (p : positive) (w : World)
    (this : CollationElements) (s : jstring) (c : UCollator)
    (pre post : list event) :
  books_balanced p w -> heap w !! p = Some this ->
  forallb neutral pre = true -> forallb neutral post = true ->
  books_balanced p
    {| heap := <[p := (start rt this s c (jni w ++ pre)).1.2]> (heap w);
       jni := (start rt this s c (jni w ++ pre)).2 ++ post |}.
Proof.
  intros Hb Hlive Hpre Hpost.
  pose proof (books_neutral p w pre Hb Hpre) as Hb1.
  destruct Hb1 as [Hok1 Hst1]; simpl in *. rewrite Hlive in Hst1.
  destruct Hst1 as (Hco & Hp & Hr).
  destruct (start_ledger rt this s c (jni w ++ pre) Hco)
    as (evs & Henv & Hevs & Hp' & Hr' & Hco').
  set (w1 := {| heap := <[p := (start rt this s c (jni w ++ pre)).1.2]> (heap w);
                jni := (start rt this s c (jni w ++ pre)).2 |}).
  assert (Hb2 : books_balanced p w1).
  { unfold books_balanced, w1; simpl. rewrite lookup_insert_eq, Henv.
    destruct (held_app (jni w ++ pre) evs) as [-> ->].
    split; [by eapply ledger_extend|]. repeat split; [done|lia|lia]. }
  exact (books_neutral p w1 post Hb2 Hpost).
Qed.

Lemma exec_op_balanced (rt : Runtime) (p : positive) (o : op) (w w' : World) :
  books_balanced p w -> exec_op rt p o w = Some w' -> books_balanced p w'.
Proof.
  intros Hb Hex. destruct o as [s c|s|]; simpl in Hex.
  - destruct (heap w !! p) as [this|] eqn:Hlive; [|done]. simpl in Hex.
    pose proof (books_start rt p w this s c [] [] Hb Hlive eq_refl eq_refl)
      as Hs.
    rewrite !app_nil_r in Hs.
    destruct (start rt this s c (jni w)) as [[st this'] env'].
    by inversion Hex; subst.
  - unfold NativeCollation_setText in Hex.
    destruct (ScopedStringChars_get rt (jni w) s) as [src|].
    + simpl in Hex. destruct (heap w !! p) as [this|] eqn:Hlive; [|done].
      simpl in Hex.
      pose proof (books_start rt p w this s 0
        [EScopedStringChars s (Some src)]
        [EmaybeThrowIcuException "ucol_setText"
           (start rt this s 0 (jni w ++ [EScopedStringChars s (Some src)])).1.1;
         EScopedStringChars_dtor s] Hb Hlive eq_refl eq_refl) as Hs.
      destruct (start rt this s 0 _) as [[st this'] env'].
      by inversion Hex; subst.
    + inversion Hex; subst. rewrite <- app_assoc.
      by apply books_neutral.
  - unfold NativeCollation_closeElements in Hex. simpl in Hex.
    destruct (heap w !! p) as [this|] eqn:Hlive; [|done]. simpl in Hex.
    destruct Hb as [Hok Hst]. rewrite Hlive in Hst.
    destruct Hst as (Hco & Hp & Hr).
    destruct (release_ledger this true (jni w) Hco)
      as (evs & Henv & Hevs & Hp' & Hr' & _).
    destruct (release this true (jni w)) as [this' env']; simpl in *.
    inversion Hex; subst. unfold books_balanced; simpl.
    rewrite lookup_delete_eq.
    destruct (held_app (jni w ++ evs) [Edelete_CollationElements p]) as [-> ->].
    destruct (held_app (jni w) evs) as [-> ->].
    split.
    + eapply ledger_extend; [by eapply ledger_extend|reflexivity..|].
      destruct (held_app (jni w) evs) as [-> ->].
      rewrite Hp, Hr, Hp', Hr'. reflexivity.
    + unfold pins_held, refs_held in *; simpl. lia.
Qed.

Lemma exec_ops_balanced (rt : Runtime) (p : positive) (ops : list op) :
  forall w w',
  books_balanced p w -> exec_ops rt p ops w = Some w' -> books_balanced p w'.
Proof.
  induction ops as [|o ops IH]; intros w w' Hb Hex; simpl in Hex.
  - by inversion Hex; subst.
  - destruct (exec_op rt p o w) as [w1|] eqn:Hop; [|done]. simpl in Hex.
    eauto using exec_op_balanced.
Qed.

Lemma just_constructed_balanced (p : positive) :
  books_balanced p (just_constructed p).
Proof.
  unfold books_balanced, just_constructed; simpl.
  rewrite lookup_singleton_eq. by vm_compute.
Qed.

(** Every operation is defined on a live iterator; only an operation
    on a destroyed one can be undefined. *)
Lemma exec_op_live (rt : Runtime) (p : positive) (o : op) (w : World) :
  is_Some (heap w !! p) -> is_Some (exec_op rt p o w).
Proof.
  intros [this Hlive]. destruct o as [s c|s|]; simpl.
  - rewrite Hlive; simpl. by destruct (start rt this s c (jni w)) as [[? ?] ?].
  - unfold NativeCollation_setText.
    destruct (ScopedStringChars_get rt (jni w) s); [|done].
    simpl. rewrite Hlive; simpl. by destruct (start rt this s 0 _) as [[? ?] ?].
  - unfold NativeCollation_closeElements; simpl. rewrite Hlive; simpl.
    by destruct (release this true (jni w)).
Qed.

(** C1.  From construction on, under any sequence of start, setText
    and close, the iterator never holds more than one pinned character
    array or more than one global string reference at any point of the
    log; whenever a new pin is taken, the previous array and reference
    have already been given back; and once the iterator has been closed
    nothing is held at all. *)
Theorem iterator_holds_at_most_one_pin (rt : Runtime) (p : positive)
    (ops : list op) (w : World) :
  exec_ops rt p ops (just_constructed p) = Some w ->
  (forall t, t `prefix_of` jni w ->
     0 <= pins_held t <= 1 /\ 0 <= refs_held t <= 1)
  /\ (forall t s c, (t ++ [EGetStringChars s (Some c)]) `prefix_of` jni w ->
        pins_held t = 0 /\ refs_held t = 0)
  /\ (heap w !! p = None -> pins_held (jni w) = 0 /\ refs_held (jni w) = 0).
Proof.
  intros Hex.
  pose proof (exec_ops_balanced rt p ops _ _
                (just_constructed_balanced p) Hex) as [Hok Hst].
  split; [|split].
  - intros t Ht.
    pose proof (ledger_ok_prefix _ 0 0 t Hok ltac:(lia) ltac:(lia) Ht). lia.
  - intros t s c Ht.
    pose proof (ledger_ok_acquire _ 0 0 t s c Hok Ht). lia.
  - intros Hgone. by rewrite Hgone in Hst.
Qed.

Lemma iterator_holds_at_most_one_pin_witness :
  exists w,
    exec_ops demo_rt 1 demo_ops (just_constructed 1) = Some w
    /\ heap w !! 1%positive = None
    /\ ((forall t, t `prefix_of` jni w ->
           0 <= pins_held t <= 1 /\ 0 <= refs_held t <= 1)
        /\ (forall t s c,
              (t ++ [EGetStringChars s (Some c)]) `prefix_of` jni w ->
              pins_held t = 0 /\ refs_held t = 0)
        /\ (heap w !! 1%positive = None ->
            pins_held (jni w) = 0 /\ refs_held (jni w) = 0)).
Proof.
  eexists. split; [vm_compute; reflexivity|].
  split; [vm_compute; reflexivity|].
  apply (iterator_holds_at_most_one_pin demo_rt 1 demo_ops).
  vm_compute; reflexivity.
Defined.

(** ** start *)

(** The log after [release(env, false)]: the pin goes back, if any. *)
Lemma release_keep_log (this : CollationElements) (env : JNIEnv) :
  (release this false env).2
  = env ++ match mChars this with
           | Some chars => [EReleaseStringChars (mString this) chars;
                            EDeleteGlobalRef (mString this)]
           | None => []
           end.
Proof.
  unfold release.
  destruct (mElements this), (mChars this); simpl; by rewrite ?app_nil_r.
Qed.

Lemma release_keep_state (this : CollationElements) (env : JNIEnv) :
  (release this false env).1
  = match mChars this with
    | Some _ => {| mElements := mElements this; mString := None;
                   mChars := None |}
    | None => this
    end.
Proof. unfold release. by destruct (mChars this). Qed.

(** What [start] does when the string cannot be pinned. *)
Lemma start_unpinned (rt : Runtime) (this : CollationElements)
    (s : jstring) (c : UCollator) (env : JNIEnv) :
  GetStringChars rt (release this false env).2 s = None ->
  start rt this s c env
  = (U_ILLEGAL_ARGUMENT_ERROR,
     {| mElements := mElements this;
        mString := match mChars this with
                   | Some _ => None
                   | None => mString this
                   end;
        mChars := None |},
     (release this false env).2 ++ [EGetStringChars s None]).
Proof.
  intros Hfail. unfold start.
  pose proof (release_keep_state this env) as Hst.
  destruct (release this false env) as [this1 env1]; simpl in *.
  rewrite Hfail. subst this1. by destruct (mChars this).
Qed.

(** What [start] does when the string is pinned. *)
Lemma start_pinned (rt : Runtime) (this : CollationElements)
    (s : jstring) (c : UCollator) (env : JNIEnv) (chars : list jchar) :
  GetStringChars rt (release this false env).2 s = Some chars ->
  let env1 := (release this false env).2 ++ [EGetStringChars s (Some chars)] in
  let ref := NewGlobalRef rt env1 s in
  let env2 := env1 ++ [ENewGlobalRef s ref] in
  let size := GetStringLength rt s in
  start rt this s c env
  = match mElements this with
    | None =>
        let r := ucol_openElements rt env2 c chars size in
        (r.2, {| mElements := r.1; mString := ref; mChars := Some chars |},
         env2 ++ [Eucol_openElements c chars size r.1 r.2])
    | Some e =>
        let status := ucol_setText rt env2 e chars size in
        (status,
         {| mElements := Some e; mString := ref; mChars := Some chars |},
         env2 ++ [Eucol_setText e chars size status])
    end.
Proof.
  intros Hpin env1 ref env2 size. subst env1 ref env2 size.
  pose proof (release_keep_state this env) as Hst.
  unfold start.
  destruct (release this false env) as [this1 env1]; simpl in *.
  rewrite Hpin.
  assert (Hel : mElements this1 = mElements this)
    by (subst this1; by destruct (mChars this)).
  rewrite Hel. destruct (mElements this) as [e|]; [reflexivity|].
  by destruct (ucol_openElements rt _ c chars _).
Qed.

(** C2, as the code has it.  When the new string cannot be pinned,
    [start] answers U_ILLEGAL_ARGUMENT_ERROR; after giving back the
    old pin it logs nothing but the failed GetStringChars, so it takes
    no new pin, no global reference and makes no call that moves the
    position; no pin is held afterwards.  An iterator that held no
    pin is left exactly as it was; one that held a pin has given it
    back. *)
Theorem start_pin_failure (rt : Runtime) (this : CollationElements)
    (s : jstring) (c : UCollator) (env : JNIEnv) :
  GetStringChars rt (release this false env).2 s = None ->
  (start rt this s c env).1.1 = U_ILLEGAL_ARGUMENT_ERROR
  /\ (start rt this s c env).2
     = (release this false env).2 ++ [EGetStringChars s None]
  /\ mChars (start rt this s c env).1.2 = None
  /\ (coherent this -> mString (start rt this s c env).1.2 = None)
  /\ (mChars this = None ->
      (start rt this s c env).1.2 = this
      /\ (start rt this s c env).2 = env ++ [EGetStringChars s None])
  /\ (forall chars, mChars this = Some chars ->
      (start rt this s c env).2
      = env ++ [EReleaseStringChars (mString this) chars;
                EDeleteGlobalRef (mString this);
                EGetStringChars s None]).
Proof.
  intros Hfail. rewrite (start_unpinned rt this s c env Hfail); simpl.
  rewrite release_keep_log.
  destruct this as [el str ch]; simpl in *.
  destruct ch as [chars|]; simpl.
  - repeat split; try done.
    intros chars' [= <-]. by rewrite <- app_assoc.
  - repeat split; try done.
    + intros Hco. by apply Hco.
    + by rewrite app_nil_r.
Qed.

Lemma start_pin_failure_witness :
  GetStringChars demo_rt (release demo_bound false []).2 0 = None
  /\ (start demo_rt demo_bound 0 4096 []).1.1 = U_ILLEGAL_ARGUMENT_ERROR
  /\ mChars (start demo_rt demo_bound 0 4096 []).1.2 = None
  /\ (start demo_rt demo_bound 0 4096 []).2
     = [EReleaseStringChars (Some 1003) [97; 97; 97];
        EDeleteGlobalRef (Some 1003);
        EGetStringChars 0 None].
Proof.
  split; [reflexivity|].
  destruct (start_pin_failure demo_rt demo_bound 0 4096 [] eq_refl)
    as (Hst & _ & Hch & _ & _ & Hlog).
  exact (conj Hst (conj Hch (Hlog _ eq_refl))).
Defined.

(** C2 as stated fails: a bound iterator whose rebind cannot pin the
    new string is afterwards neither in its previous state nor in the
    state the constructor leaves (UNBOUND).  It still has its engine
    iterator, and the next successful [start] repositions that one
    instead of opening a new one. *)
Lemma start_pin_failure_counterexample :
  let after := (start demo_rt demo_bound 0 4096 []).1.2 in
  GetStringChars demo_rt (release demo_bound false []).2 0 = None
  /\ ~ (after = demo_bound \/ after = CollationElements_new)
  /\ engines_opened (start demo_rt after 3 4096 []).2 = 0%nat
  /\ engines_opened (start demo_rt CollationElements_new 3 4096 []).2 = 1%nat.
Proof.
  vm_compute. split; [reflexivity|]. split; [|split; reflexivity].
  intros [H|H]; discriminate H.
Qed.

(** C10.  A bound iterator whose rebind cannot pin the new string ends
    the call with no pin and no global reference: both were given back
    before GetStringChars was tried, and the call answers
    U_ILLEGAL_ARGUMENT_ERROR. *)
Theorem failed_rebind_drops_pin (rt : Runtime) (this : CollationElements)
    (s : jstring) (c : UCollator) (env : JNIEnv) (chars : list jchar) :
  mChars this = Some chars ->
  GetStringChars rt
    (env ++ [EReleaseStringChars (mString this) chars;
             EDeleteGlobalRef (mString this)]) s = None ->
  (start rt this s c env).1.1 = U_ILLEGAL_ARGUMENT_ERROR
  /\ mChars (start rt this s c env).1.2 = None
  /\ mString (start rt this s c env).1.2 = None
  /\ (start rt this s c env).2
     = env ++ [EReleaseStringChars (mString this) chars;
               EDeleteGlobalRef (mString this);
               EGetStringChars s None].
Proof.
  intros Hbound Hfail.
  pose proof (release_keep_log this env) as Hlog. rewrite Hbound in Hlog.
  rewrite <- Hlog in Hfail.
  rewrite (start_unpinned rt this s c env Hfail); simpl.
  rewrite Hbound, Hlog, <- app_assoc. done.
Qed.

Lemma failed_rebind_drops_pin_witness :
  mChars demo_bound = Some [97; 97; 97]
  /\ (start demo_rt demo_bound 0 4096 []).1.1 = U_ILLEGAL_ARGUMENT_ERROR
  /\ mChars (start demo_rt demo_bound 0 4096 []).1.2 = None
  /\ mString (start demo_rt demo_bound 0 4096 []).1.2 = None
  /\ (start demo_rt demo_bound 0 4096 []).2
     = [EReleaseStringChars (Some 1003) [97; 97; 97];
        EDeleteGlobalRef (Some 1003);
        EGetStringChars 0 None].
Proof.
  split; [reflexivity|].
  exact (failed_rebind_drops_pin demo_rt demo_bound 0 4096 [] [97; 97; 97]
           eq_refl eq_refl).
Defined.

Lemma engines_opened_app (a b : JNIEnv) :
  engines_opened (a ++ b) = (engines_opened a + engines_opened b)%nat.
Proof. unfold engines_opened. by rewrite List.filter_app, length_app. Qed.

Lemma engines_opened_release (this : CollationElements) (env : JNIEnv) :
  engines_opened (release this false env).2 = engines_opened env.
Proof.
  rewrite release_keep_log, engines_opened_app.
  destruct (mChars this); unfold engines_opened; simpl; lia.
Qed.

(** C8.  [start] with a string that can be pinned: an iterator without
    an engine iterator gets the one that ucol_openElements creates
    from the supplied collator over the pinned array; an iterator that
    has one keeps that very pointer, has ucol_setText called on it
    with the pinned array, and no ucol_openElements call is made. *)
Theorem start_opens_or_repositions (rt : Runtime) (this : CollationElements)
    (s : jstring) (c : UCollator) (env : JNIEnv) (chars : list jchar) :
  GetStringChars rt (release this false env).2 s = Some chars ->
  let env1 := (release this false env).2 ++ [EGetStringChars s (Some chars)] in
  let env2 := env1 ++ [ENewGlobalRef s (NewGlobalRef rt env1 s)] in
  let size := GetStringLength rt s in
  match mElements this with
  | None =>
      let r := ucol_openElements rt env2 c chars size in
      mElements (start rt this s c env).1.2 = r.1
      /\ (start rt this s c env).1.1 = r.2
      /\ (start rt this s c env).2
         = env2 ++ [Eucol_openElements c chars size r.1 r.2]
      /\ engines_opened (start rt this s c env).2
         = S (engines_opened env)
  | Some e =>
      let status := ucol_setText rt env2 e chars size in
      mElements (start rt this s c env).1.2 = Some e
      /\ (start rt this s c env).1.1 = status
      /\ (start rt this s c env).2 = env2 ++ [Eucol_setText e chars size status]
      /\ engines_opened (start rt this s c env).2 = engines_opened env
  end
  /\ mChars (start rt this s c env).1.2 = Some chars.
Proof.
  intros Hpin env1 env2 size.
  pose proof (engines_opened_release this env) as Hcount.
  rewrite (start_pinned rt this s c env chars Hpin).
  subst env1 env2 size.
  destruct (mElements this) as [e|]; simpl; repeat split;
    rewrite !engines_opened_app, Hcount; unfold engines_opened; simpl; lia.
Qed.

Lemma start_opens_or_repositions_witness :
  GetStringChars demo_rt (release demo_bound false []).2 5
  = Some [97; 97; 97; 97; 97]
  /\ mElements (start demo_rt demo_bound 5 0 []).1.2 = Some 7%positive
  /\ (start demo_rt demo_bound 5 0 []).2
     = [EReleaseStringChars (Some 1003) [97; 97; 97];
        EDeleteGlobalRef (Some 1003);
        EGetStringChars 5 (Some [97; 97; 97; 97; 97]);
        ENewGlobalRef 5 (Some 1005);
        Eucol_setText 7%positive [97; 97; 97; 97; 97] 5 U_ZERO_ERROR]
  /\ engines_opened (start demo_rt demo_bound 5 0 []).2 = 0%nat.
Proof.
  split; [reflexivity|].
  destruct (start_opens_or_repositions demo_rt demo_bound 5 0 []
              [97; 97; 97; 97; 97] eq_refl) as [(Hel & _ & Hlog & Hn) _].
  exact (conj Hel (conj Hlog Hn)).
Defined.

(** ** compare and the handle-creating methods *)

(** C7.  [compare] answers 0, the value for EQUAL, when its left or
    its right string cannot be read, while [start] answers
    U_ILLEGAL_ARGUMENT_ERROR for a string it cannot pin: the two
    answers to an unreadable string differ. *)
Theorem unreadable_string_policies (rt : Runtime) (address : jlong)
    (javaLhs javaRhs : jstring) (env : JNIEnv)
    (this : CollationElements) (s : jstring) (c : UCollator) (env' : JNIEnv) :
  ScopedStringChars_get rt env javaLhs = None
  \/ ScopedStringChars_get rt
       (env ++ [EScopedStringChars javaLhs
                  (ScopedStringChars_get rt env javaLhs)]) javaRhs = None ->
  GetStringChars rt (release this false env').2 s = None ->
  (NativeCollation_compare rt address javaLhs javaRhs env).1 = 0
  /\ ordering_of (NativeCollation_compare rt address javaLhs javaRhs env).1 = Eq
  /\ (start rt this s c env').1.1 = U_ILLEGAL_ARGUMENT_ERROR
  /\ (start rt this s c env').1.1
     <> (NativeCollation_compare rt address javaLhs javaRhs env).1.
Proof.
  intros Hcmp Hpin.
  assert (Hst : (start rt this s c env').1.1 = U_ILLEGAL_ARGUMENT_ERROR)
    by (by rewrite (start_unpinned rt this s c env' Hpin)).
  assert (Hzero : (NativeCollation_compare rt address javaLhs javaRhs env).1 = 0).
  { unfold NativeCollation_compare.
    destruct (ScopedStringChars_get rt env javaLhs) as [l|] eqn:Hl; [|done].
    destruct Hcmp as [Hcmp|Hcmp]; [done|]. by rewrite Hcmp. }
  rewrite Hzero, Hst. repeat split; done.
Qed.

Lemma unreadable_string_policies_witness :
  (NativeCollation_compare demo_rt 4096 3 0 []).1 = 0
  /\ (start demo_rt CollationElements_new 0 4096 []).1.1
     = U_ILLEGAL_ARGUMENT_ERROR.
Proof.
  destruct (unreadable_string_policies demo_rt 4096 3 0 []
              CollationElements_new 0 4096 [] (or_intror eq_refl) eq_refl)
    as (Hc & _ & Hs & _).
  exact (conj Hc Hs).
Defined.

(** C9.  The failure values of the handle-creating methods differ:
    openCollator answers 0 for a locale it cannot read,
    openCollatorFromRules answers -1 for rules it cannot read, and
    getCollationElementIterator answers -1 for a source it cannot read
    but 0 when ucol_openElements reports a status other than
    U_ZERO_ERROR. *)
Theorem failure_sentinels (rt : Runtime) (env : JNIEnv) (w : World)
    (javaLocaleName javaRules : jstring) (mode strength : jint)
    (address : jlong) (javaSource javaSource' : jstring)
    (text chars : list jchar) :
  ScopedUtfChars_c_str rt env javaLocaleName = None ->
  ScopedStringChars_get rt env javaRules = None ->
  ScopedStringChars_get rt (jni w) javaSource = None ->
  ScopedStringChars_get rt (jni w) javaSource' = Some text ->
  let env1 := jni w ++ [EScopedStringChars javaSource' (Some text);
                        Enew_CollationElements (operator_new (heap w))] in
  GetStringChars rt env1 javaSource' = Some chars ->
  let env2 := env1 ++ [EGetStringChars javaSource' (Some chars)] in
  let env3 := env2 ++ [ENewGlobalRef javaSource' (NewGlobalRef rt env2 javaSource')] in
  (ucol_openElements rt env3 (toCollator address) chars
     (GetStringLength rt javaSource')).2 <> U_ZERO_ERROR ->
  (NativeCollation_openCollator rt javaLocaleName env).1 = 0
  /\ (NativeCollation_openCollatorFromRules rt javaRules mode strength env).1
     = -1
  /\ (NativeCollation_getCollationElementIterator rt address javaSource w).1
     = -1
  /\ (NativeCollation_getCollationElementIterator rt address javaSource' w).1
     = 0.
Proof.
  intros Hloc Hrules Hsrc Hsrc' env1 Hpin env2 env3 Hstatus.
  split; [|split; [|split]].
  - unfold NativeCollation_openCollator. by rewrite Hloc.
  - unfold NativeCollation_openCollatorFromRules. by rewrite Hrules.
  - unfold NativeCollation_getCollationElementIterator. by rewrite Hsrc.
  - unfold NativeCollation_getCollationElementIterator. rewrite Hsrc'.
    rewrite <- app_assoc; simpl. fold env1.
    pose proof (start_pinned rt CollationElements_new
                  javaSource' (toCollator address) env1 chars) as Hstart.
    simpl in Hstart. rewrite ?app_nil_r in Hstart.
    rewrite (Hstart Hpin). fold env2 env3. simpl.
    by rewrite decide_False.
Qed.

Lemma failure_sentinels_witness :
  (NativeCollation_openCollator demo_rt 0 []).1 = 0
  /\ (NativeCollation_openCollatorFromRules demo_rt 0 0 2 []).1 = -1
  /\ (NativeCollation_getCollationElementIterator demo_rt 4096 0
        {| heap := ∅; jni := [] |}).1 = -1
  /\ (NativeCollation_getCollationElementIterator demo_rt 0 3
        {| heap := ∅; jni := [] |}).1 = 0.
Proof.
  apply (failure_sentinels demo_rt [] {| heap := ∅; jni := [] |}
           0 0 0 2 0 0 3 [97; 97; 97] [97; 97; 97]);
    try reflexivity.
  vm_compute. discriminate.
Defined.

(** ** closeElements *)

(** C3, as the code has it.  Closing a live iterator is defined: it
    calls ucol_closeElements once if there is an engine iterator,
    gives the pin and the global reference back once if a pin is held,
    and deletes the object.  An iterator that was never bound is only
    deleted.  After that the handle is dead: a second close of it is
    not defined. *)
Theorem close_releases_once (w : World) (p : positive)
    (this : CollationElements) :
  heap w !! p = Some this ->
  exists w',
    NativeCollation_closeElements (Zpos p) w = Some w'
    /\ heap w' = delete p (heap w)
    /\ jni w'
       = jni w
         ++ match mElements this with
            | Some e => [Eucol_closeElements e]
            | None => []
            end
         ++ match mChars this with
            | Some chars => [EReleaseStringChars (mString this) chars;
                             EDeleteGlobalRef (mString this)]
            | None => []
            end
         ++ [Edelete_CollationElements p]
    /\ (this = CollationElements_new ->
        jni w' = jni w ++ [Edelete_CollationElements p])
    /\ NativeCollation_closeElements (Zpos p) w' = None.
Proof.
  intros Hlive. unfold NativeCollation_closeElements at 1; simpl.
  rewrite Hlive; simpl. unfold release.
  destruct this as [el str ch]; simpl.
  destruct el as [e|], ch as [chars|]; simpl;
    (eexists; split; [reflexivity|]); simpl;
    (split; [reflexivity|]);
    rewrite <- ?app_assoc; simpl;
    (split; [reflexivity|]);
    (split; [intros [=]; reflexivity|]);
    unfold NativeCollation_closeElements; simpl;
    by rewrite lookup_delete_eq.
Qed.

Lemma close_releases_once_witness :
  exists w',
    NativeCollation_closeElements 1 demo_world = Some w'
    /\ heap w' = delete 1%positive (heap demo_world)
    /\ jni w' = [Eucol_closeElements 7%positive;
                 EReleaseStringChars (Some 1003) [97; 97; 97];
                 EDeleteGlobalRef (Some 1003);
                 Edelete_CollationElements 1%positive]
    /\ NativeCollation_closeElements 1 w' = None.
Proof.
  destruct (close_releases_once demo_world 1 demo_bound eq_refl)
    as (w' & Hc & Hh & Hl & _ & Hagain).
  exists w'. exact (conj Hc (conj Hh (conj Hl Hagain))).
Defined.

(** C3 as stated fails: close is not idempotent.  A second close of
    the same handle dereferences the deleted object, and even the
    [release] inside it, run again on the state the first run left,
    closes the same engine iterator a second time (only the pin is
    given back once). *)
Lemma close_twice_counterexample :
  (exists w',
     NativeCollation_closeElements 1 demo_world = Some w'
     /\ NativeCollation_closeElements 1 w' = None)
  /\ (release (release demo_bound true []).1 true
        (release demo_bound true []).2).2
     = [Eucol_closeElements 7%positive;
        EReleaseStringChars (Some 1003) [97; 97; 97];
        EDeleteGlobalRef (Some 1003);
        Eucol_closeElements 7%positive].
Proof.
  split; [|reflexivity].
  eexists. split; [vm_compute; reflexivity|]. vm_compute. reflexivity.
Qed.

(** ** getSortKey *)

Lemma take_stored (key buffer : list uint8_t) :
  take (Z.to_nat (Z.of_N (N.of_nat (length key)))) (buffer_store key buffer)
  = key.
Proof.
  rewrite nat_N_Z, Nat2Z.id. unfold buffer_store. apply take_app_length.
Qed.

(** With a readable source and a well-behaved engine the result is
    the whole key, or NULL for the empty key. *)
Lemma getSortKey_key (rt : Runtime) (address : jlong)
    (javaSource : jstring) (env : JNIEnv) (src : list jchar)
    (key : list uint8_t) :
  ScopedStringChars_get rt env javaSource = Some src ->
  sort_key_engine rt (toCollator address) src
    (GetStringLength rt javaSource) key ->
  (NativeCollation_getSortKey rt address javaSource env).1
  = if decide (Z.of_nat (length key) = 0) then None else Some key.
Proof.
  intros Hread Hengine. set (n := Z.of_nat (length key)).
  assert (Hn : Z.of_N (N.of_nat (length key)) = n) by (unfold n; lia).
  unfold NativeCollation_getSortKey. rewrite Hread.
  destruct (Hengine (sizeof_byteArray - 1)) as [Hsize Hfit].
  destruct (ucol_getSortKey rt (toCollator address) src _
              (sizeof_byteArray - 1)) as [needed stored]; simpl in *.
  subst needed. rewrite Hn. unfold sizeof_byteArray in *.
  destruct (decide (n > 128 - 1)) as [Hbig|Hsmall].
  - destruct (Hengine n) as [Hsize2 Hfit2].
    destruct (ucol_getSortKey rt (toCollator address) src _ n)
      as [needed2 stored2]; simpl in *.
    subst needed2. rewrite Hn, (Hfit2 ltac:(lia)).
    destruct (decide (n = 0)); [reflexivity|]. simpl.
    by rewrite <- Hn, take_stored.
  - rewrite (Hfit ltac:(lia)).
    destruct (decide (n = 0)); [reflexivity|]. simpl.
    by rewrite <- Hn, take_stored.
Qed.

(** C5.  For a readable source and an engine that reports the key
    length and stores the key when it fits: the first encode is offered
    the stack buffer (capacity sizeof(byteArray) - 1 = 127); a second
    encode, into a heap buffer of length + 1 bytes offered with
    capacity length, happens exactly when the reported length exceeds
    127; and the bytes returned are the whole key, the same bytes as
    one direct encode into any buffer the key fits in. *)
Theorem two_phase_encode_is_direct_encode (rt : Runtime) (address : jlong)
    (javaSource : jstring) (env : JNIEnv) (src : list jchar)
    (key : list uint8_t) :
  ScopedStringChars_get rt env javaSource = Some src ->
  sort_key_engine rt (toCollator address) src
    (GetStringLength rt javaSource) key ->
  let n := Z.of_nat (length key) in
  let r := NativeCollation_getSortKey rt address javaSource env in
  r.1 = (if decide (n = 0) then None else Some key)
  /\ (forall capacity, n <= capacity ->
      direct_encode rt (toCollator address) src
        (GetStringLength rt javaSource) capacity = key)
  /\ r.2 = env
           ++ [EScopedStringChars javaSource (Some src);
               Eucol_getSortKey (toCollator address) 127 n]
           ++ (if decide (n > 127)
               then [Enew_uint8_array (n + 1);
                     Eucol_getSortKey (toCollator address) n n]
               else [])
           ++ (if decide (n = 0) then [] else [ENewByteArray n])
           ++ [EScopedStringChars_dtor javaSource].
Proof.
  intros Hread Hengine n r.
  assert (Hn : Z.of_N (N.of_nat (length key)) = n) by (unfold n; lia).
  split; [|split].
  - exact (getSortKey_key rt address javaSource env src key Hread Hengine).
  - intros capacity Hcap. unfold direct_encode.
    destruct (Hengine capacity) as [Hsize Hfit].
    destruct (ucol_getSortKey rt (toCollator address) src _ capacity)
      as [needed stored]; simpl in *.
    subst needed. rewrite (Hfit Hcap), Nat2N.id.
    unfold buffer_store. apply take_app_length.
  - subst r. unfold NativeCollation_getSortKey. rewrite Hread.
    destruct (Hengine (sizeof_byteArray - 1)) as [Hsize _].
    destruct (ucol_getSortKey rt (toCollator address) src _
                (sizeof_byteArray - 1)) as [needed stored]; simpl in *.
    subst needed. rewrite Hn. unfold sizeof_byteArray in *.
    change (128 - 1) with 127.
    destruct (decide (n > 127)) as [Hbig|Hsmall].
    + destruct (Hengine n) as [Hsize2 _].
      destruct (ucol_getSortKey rt (toCollator address) src _ n)
        as [needed2 stored2]; simpl in *.
      subst needed2. rewrite Hn.
      destruct (decide (n = 0)); simpl; by rewrite <- ?app_assoc.
    + destruct (decide (n = 0)); simpl; by rewrite <- ?app_assoc.
Qed.

Lemma demo_engine (c : UCollator) (src : list jchar) (len : Z) :
  sort_key_engine demo_rt c src len (demo_key src).
Proof.
  intros capacity. split; [reflexivity|]. simpl. intros Hcap.
  apply take_ge. lia.
Qed.

(** A key of 201 bytes goes through the heap buffer, one of 4 bytes
    does not. *)
Lemma two_phase_encode_is_direct_encode_witness :
  (NativeCollation_getSortKey demo_rt 4096 200 []).1
  = Some (replicate 200 97 ++ [0])
  /\ (NativeCollation_getSortKey demo_rt 4096 200 []).2
     = [EScopedStringChars 200 (Some (replicate 200 97));
        Eucol_getSortKey 4096 127 201;
        Enew_uint8_array 202;
        Eucol_getSortKey 4096 201 201;
        ENewByteArray 201;
        EScopedStringChars_dtor 200]
  /\ direct_encode demo_rt 4096 (replicate 200 97) 200 4000
     = replicate 200 97 ++ [0].
Proof.
  destruct (two_phase_encode_is_direct_encode demo_rt 4096 200 []
              (replicate 200 97) (demo_key (replicate 200 97))
              eq_refl (demo_engine _ _ _)) as (Hr & Hd & Hl).
  split; [exact Hr|]. split; [exact Hl|].
  apply (Hd 4000). vm_compute. discriminate.
Defined.

(** C6, as the code has it.  For a source that can be read, the
    result is NULL exactly when the computed key length is zero.  For
    a source that cannot be read the result is NULL as well, and the
    encoder is never called. *)
Theorem sort_key_null_result (rt : Runtime) (address : jlong)
    (javaSource : jstring) (env : JNIEnv) :
  match ScopedStringChars_get rt env javaSource with
  | Some src =>
      (NativeCollation_getSortKey rt address javaSource env).1 = None
      <-> computed_key_length rt (toCollator address) src
            (GetStringLength rt javaSource) = 0
  | None =>
      NativeCollation_getSortKey rt address javaSource env
      = (None, env ++ [EScopedStringChars javaSource None;
                       EScopedStringChars_dtor javaSource])
  end.
Proof.
  unfold NativeCollation_getSortKey, computed_key_length.
  destruct (ScopedStringChars_get rt env javaSource) as [src|].
  - destruct (ucol_getSortKey rt (toCollator address) src _
                (sizeof_byteArray - 1)) as [needed stored]; simpl.
    destruct (decide (Z.of_N needed > sizeof_byteArray - 1)).
    + destruct (ucol_getSortKey rt (toCollator address) src _
                  (Z.of_N needed)) as [needed2 stored2]; simpl.
      destruct (decide (Z.of_N needed2 = 0)); simpl; split; done.
    + destruct (decide (Z.of_N needed = 0)); simpl; split; done.
  - by rewrite <- app_assoc.
Qed.

(** C6 as stated fails: for the unreadable string 0 the result is
    NULL although no key length was computed, the encoder not having
    been called at all; the same NULL is the answer to the error. *)
Lemma sort_key_null_result_counterexample :
  ScopedStringChars_get demo_rt [] 0 = None
  /\ NativeCollation_getSortKey demo_rt 4096 0 []
     = (None, [EScopedStringChars 0 None; EScopedStringChars_dtor 0])
  /\ ~ (exists src,
          ScopedStringChars_get demo_rt [] 0 = Some src
          /\ computed_key_length demo_rt 4096 src
               (GetStringLength demo_rt 0) = 0).
Proof.
  split; [reflexivity|]. split; [reflexivity|].
  intros (src & Hread & _). discriminate Hread.
Qed.

(** C4.  For an engine whose keys order as its comparison does, and
    two strings that can be read: whenever getSortKey returns a key for
    each, the byte order of the two returned arrays is the ordering
    that compare answers. *)
Theorem sort_key_order_agrees_with_compare (rt : Runtime) (address : jlong)
    (a b : jstring) (ta tb : list jchar) (ka kb ra rb : list uint8_t)
    (env1 env2 env3 : JNIEnv) :
  readable rt a ta -> readable rt b tb ->
  sort_key_engine rt (toCollator address) ta (GetStringLength rt a) ka ->
  sort_key_engine rt (toCollator address) tb (GetStringLength rt b) kb ->
  engine_keys_order_as_strcoll rt (toCollator address) ->
  (NativeCollation_getSortKey rt address a env1).1 = Some ra ->
  (NativeCollation_getSortKey rt address b env2).1 = Some rb ->
  bytes_compare ra rb
  = ordering_of (NativeCollation_compare rt address a b env3).1.
Proof.
  intros Ha Hb Hka Hkb Horder Hra Hrb.
  pose proof (getSortKey_key rt address a env1 ta ka (Ha env1) Hka) as Hra'.
  pose proof (getSortKey_key rt address b env2 tb kb (Hb env2) Hkb) as Hrb'.
  rewrite Hra in Hra'. rewrite Hrb in Hrb'.
  destruct (decide (Z.of_nat (length ka) = 0)); [done|].
  destruct (decide (Z.of_nat (length kb) = 0)); [done|].
  inversion Hra'; inversion Hrb'; subst ra rb.
  unfold NativeCollation_compare. rewrite (Ha env3), (Hb _). simpl.
  by apply Horder.
Qed.

Lemma sort_key_engine_unique (rt : Runtime) (c : UCollator)
    (src : list jchar) (len : Z) (k1 k2 : list uint8_t) :
  sort_key_engine rt c src len k1 -> sort_key_engine rt c src len k2 ->
  k1 = k2.
Proof.
  intros H1 H2.
  destruct (H1 (Z.of_nat (length k1))) as [Hn1 Hk1].
  destruct (H2 (Z.of_nat (length k1))) as [Hn2 Hk2].
  rewrite Hn1 in Hn2. apply Nat2N.inj in Hn2.
  rewrite <- (Hk1 ltac:(lia)). apply Hk2. lia.
Qed.

Lemma ordering_of_jint_of (c : comparison) : ordering_of (jint_of c) = c.
Proof. by destruct c. Qed.

Lemma demo_engine_ordered (c : UCollator) :
  engine_keys_order_as_strcoll demo_rt c.
Proof.
  intros ta la tb lb ka kb Ha Hb.
  rewrite (sort_key_engine_unique _ _ _ _ _ _ Ha (demo_engine c ta la)).
  rewrite (sort_key_engine_unique _ _ _ _ _ _ Hb (demo_engine c tb lb)).
  simpl. by rewrite ordering_of_jint_of.
Qed.

Lemma demo_readable (n : positive) :
  readable demo_rt (Zpos n) (replicate (Pos.to_nat n) 97).
Proof. intros env. reflexivity. Qed.

(** Three letters against two hundred: the first key is a proper
    prefix up to the final zero byte, so it sorts first. *)
Lemma sort_key_order_agrees_with_compare_witness :
  (NativeCollation_getSortKey demo_rt 4096 3 []).1 = Some [97; 97; 97; 0]
  /\ (NativeCollation_getSortKey demo_rt 4096 200 []).1
     = Some (replicate 200 97 ++ [0])
  /\ bytes_compare [97; 97; 97; 0] (replicate 200 97 ++ [0])
     = ordering_of (NativeCollation_compare demo_rt 4096 3 200 []).1
  /\ (NativeCollation_compare demo_rt 4096 3 200 []).1 = -1.
Proof.
  split; [reflexivity|]. split; [reflexivity|]. split; [|reflexivity].
  apply (sort_key_order_agrees_with_compare demo_rt 4096 3 200
           (replicate 3 97) (replicate 200 97)
           (demo_key (replicate 3 97)) (demo_key (replicate 200 97))
           [97; 97; 97; 0] (replicate 200 97 ++ [0]) [] [] []).
  - exact (demo_readable 3).
  - exact (demo_readable 200).
  - apply demo_engine.
  - apply demo_engine.
  - apply demo_engine_ordered.
  - reflexivity.
  - reflexivity.
Defined.

Lemma sort_key_null_result_witness :
  (NativeCollation_getSortKey demo_rt 4096 3 []).1 = None
  <-> computed_key_length demo_rt 4096 [97; 97; 97] 3 = 0.
Proof. exact (sort_key_null_result demo_rt 4096 3 []). Defined.

(** * Further properties of the iterator's resources *)

(** ** One induction for every invariant of an iterator's life *)

Lemma exec_ops_invariant (rt : Runtime) (p : positive)
    (I : option CollationElements -> JNIEnv -> Prop) :
  (forall o env evs,
     forallb bookkeeping evs = true -> I o env -> I o (env ++ evs)) ->
  (forall this s c env,
     I (Some this) env ->
     I (Some (start rt this s c env).1.2) (start rt this s c env).2) ->
  (forall this env,
     I (Some this) env -> I None (release this true env).2) ->
  forall ops w w',
    I (heap w !! p) (jni w) -> exec_ops rt p ops w = Some w' ->
    I (heap w' !! p) (jni w').
Proof.
  intros Hbook Hstart Hclose.
  induction ops as [|o ops IH]; intros w w' HI Hex; simpl in Hex.
  { by inversion Hex; subst. }
  destruct (exec_op rt p o w) as [w1|] eqn:Hop; [|done]. simpl in Hex.
  apply (IH w1 w'); [|exact Hex]. clear IH Hex.
  destruct o as [s c|s|]; simpl in Hop.
  - destruct (heap w !! p) as [this|] eqn:Hlive; [|done]. simpl in Hop.
    specialize (Hstart this s c (jni w) HI).
    destruct (start rt this s c (jni w)) as [[st this'] env'].
    inversion Hop; subst; simpl. by rewrite lookup_insert_eq.
  - unfold NativeCollation_setText in Hop.
    destruct (ScopedStringChars_get rt (jni w) s) as [src|].
    + simpl in Hop. destruct (heap w !! p) as [this|] eqn:Hlive; [|done].
      simpl in Hop.
      pose proof (Hbook _ _ [EScopedStringChars s (Some src)] eq_refl HI)
        as HI1.
      specialize (Hstart this s 0 _ HI1).
      destruct (start rt this s 0 _) as [[st this'] env'].
      inversion Hop; subst; simpl. rewrite lookup_insert_eq.
      by apply Hbook.
    + inversion Hop; subst; simpl. rewrite <- app_assoc. by apply Hbook.
  - unfold NativeCollation_closeElements in Hop. simpl in Hop.
    destruct (heap w !! p) as [this|] eqn:Hlive; [|done]. simpl in Hop.
    specialize (Hclose this (jni w) HI).
    destruct (release this true (jni w)) as [this' env'].
    inversion Hop; subst; simpl. rewrite lookup_delete_eq. by apply Hbook.
Qed.

Lemma balance_bookkeeping (d : event -> Z) (evs : list event) :
  (forall e, bookkeeping e = true -> d e = 0) ->
  forallb bookkeeping evs = true -> balance d evs = 0.
Proof.
  intros Hd. unfold balance.
  induction evs as [|e evs IH]; simpl; [done|].
  intros [He Hevs]%andb_true_iff. rewrite (Hd e He), (IH Hevs). done.
Qed.

(** ** The engine iterator *)

Lemma release_elements (this : CollationElements) (b : bool) (env : JNIEnv) :
  mElements (release this b env).1 = mElements this.
Proof. unfold release. by destruct (mChars this). Qed.

Lemma start_keeps_elements (rt : Runtime) (this : CollationElements)
    (s : jstring) (c : UCollator) (env : JNIEnv) (e : UCollationElements) :
  mElements this = Some e -> mElements (start rt this s c env).1.2 = Some e.
Proof.
  intros He.
  destruct (GetStringChars rt (release this false env).2 s) as [chars|] eqn:Hpin.
  - rewrite (start_pinned rt this s c env chars Hpin), He. reflexivity.
  - rewrite (start_unpinned rt this s c env Hpin). exact He.
Qed.

(** X1.  Once an iterator has an engine iterator, no sequence of
    start and setText replaces it: as long as the iterator lives,
    [get] answers the same pointer. *)
Theorem engine_iterator_is_stable (rt : Runtime) (p : positive)
    (ops : list op) (w w' : World) (this this' : CollationElements)
    (e : UCollationElements) :
  heap w !! p = Some this -> get this = Some e ->
  exec_ops rt p ops w = Some w' ->
  heap w' !! p = Some this' ->
  get this' = Some e.
Proof.
  intros Hlive He Hex Hlive'.
  pose proof (exec_ops_invariant rt p
    (fun o _ => match o with
                | Some t => mElements t = Some e
                | None => True
                end)) as Hinv.
  specialize (Hinv ltac:(done)
                   ltac:(intros; by apply start_keeps_elements)
                   ltac:(done) ops w w').
  rewrite Hlive, Hlive' in Hinv. by apply Hinv.
Qed.

Lemma engine_iterator_is_stable_witness :
  get demo_bound = Some 7%positive
  /\ exists w' this',
       exec_ops demo_rt 1 [OpSetText 5; OpStart 0 0; OpSetText 0; OpStart 2 4096]
         demo_world = Some w'
       /\ heap w' !! 1%positive = Some this'
       /\ get this' = Some 7%positive.
Proof.
  split; [reflexivity|].
  eexists. eexists.
  split; [vm_compute; reflexivity|].
  split; [vm_compute; reflexivity|].
  eapply (engine_iterator_is_stable demo_rt 1
            [OpSetText 5; OpStart 0 0; OpSetText 0; OpStart 2 4096]
            demo_world _ demo_bound);
    vm_compute; reflexivity.
Defined.

Lemma engines_held_app (a b : JNIEnv) :
  engines_held (a ++ b) = engines_held a + engines_held b.
Proof. apply balance_app. Qed.

Lemma release_engines (this : CollationElements) (b : bool) (env : JNIEnv) :
  engines_held (release this b env).2
  = engines_held env - (if b then engine_count this else 0).
Proof.
  unfold release, engine_count.
  destruct (mElements this), b, (mChars this); simpl;
    rewrite ?engines_held_app; unfold engines_held; simpl; lia.
Qed.

Lemma start_engines (rt : Runtime) (this : CollationElements)
    (s : jstring) (c : UCollator) (env : JNIEnv) :
  engines_held (start rt this s c env).2
  = engines_held env + engine_count (start rt this s c env).1.2
    - engine_count this.
Proof.
  pose proof (release_engines this false env) as Hrel. simpl in Hrel.
  destruct (GetStringChars rt (release this false env).2 s) as [chars|] eqn:Hpin.
  - rewrite (start_pinned rt this s c env chars Hpin).
    unfold engine_count.
    destruct (mElements this) as [e|]; simpl.
    + rewrite !engines_held_app, Hrel. unfold engines_held; simpl. lia.
    + destruct (ucol_openElements rt _ c chars _) as [[e'|] st]; simpl;
        rewrite !engines_held_app, Hrel; unfold engines_held; simpl; lia.
  - rewrite (start_unpinned rt this s c env Hpin); simpl.
    rewrite engines_held_app, Hrel. unfold engines_held, engine_count; simpl.
    lia.
Qed.

(** X2.  From construction on, the engine iterators that
    ucol_openElements handed out and ucol_closeElements has not taken
    back are exactly the one the iterator points to; once the iterator
    has been closed there is none. *)
Theorem engine_iterator_is_accounted (rt : Runtime) (p : positive)
    (ops : list op) (w : World) :
  exec_ops rt p ops (just_constructed p) = Some w ->
  engines_held (jni w)
  = match heap w !! p with
    | Some this => engine_count this
    | None => 0
    end.
Proof.
  intros Hex.
  apply (exec_ops_invariant rt p
    (fun o env => engines_held env
                  = match o with Some t => engine_count t | None => 0 end))
    with (ops := ops) (w := just_constructed p); [| | | |exact Hex].
  - intros o env evs Hevs HI. rewrite engines_held_app, HI.
    unfold engines_held. rewrite (balance_bookkeeping engine_delta evs);
      [lia| |exact Hevs].
    by intros [].
  - intros this s c env HI. rewrite start_engines, HI. lia.
  - intros this env HI. rewrite release_engines, HI. lia.
  - unfold just_constructed; simpl. by rewrite lookup_singleton_eq.
Qed.

Lemma engine_iterator_is_accounted_witness :
  exists w,
    exec_ops demo_rt 1 demo_ops (just_constructed 1) = Some w
    /\ heap w !! 1%positive = None
    /\ engines_held (jni w) = 0.
Proof.
  eexists. split; [vm_compute; reflexivity|].
  split; [vm_compute; reflexivity|].
  rewrite (engine_iterator_is_accounted demo_rt 1 demo_ops);
    vm_compute; reflexivity.
Defined.

(** ** Releases give back what was acquired *)

Lemma held_after_app (h : option (list Z) * option Z) (a b : JNIEnv) :
  held_after h (a ++ b) = held_after (held_after h a) b.
Proof. unfold held_after. apply foldl_app. Qed.

Lemma releases_match_app (a b : JNIEnv) : forall h,
  releases_match h (a ++ b)
  = releases_match h a && releases_match (held_after h a) b.
Proof.
  induction a as [|e a IH]; intros h; simpl; [done|].
  by rewrite IH, andb_assoc.
Qed.

Lemma held_after_bookkeeping (evs : JNIEnv) : forall h,
  forallb bookkeeping evs = true ->
  releases_match h evs = true /\ held_after h evs = h.
Proof.
  induction evs as [|e evs IH]; intros h Hevs; [done|].
  simpl in Hevs. apply andb_true_iff in Hevs as [He Hevs].
  destruct (IH (held_step h e) Hevs) as [Hm Hh].
  unfold held_after in *; simpl. rewrite Hm, Hh.
  by destruct e.
Qed.

Lemma releases_match_release (l : JNIEnv) : forall h t g c,
  releases_match h l = true ->
  (t ++ [EReleaseStringChars g c]) `prefix_of` l ->
  held_after h t = (Some c, g).
Proof.
  induction l as [|e l IH]; intros h t g c Hm Ht.
  - apply prefix_nil_inv in Ht. by destruct t.
  - simpl in Hm. apply andb_true_iff in Hm as [He Hm].
    destruct t as [|e' t]; simpl in Ht.
    + apply prefix_cons_inv_1 in Ht as <-. simpl in He.
      by apply bool_decide_eq_true in He.
    + apply prefix_cons_inv_1 in Ht as He'. subst e'.
      apply prefix_cons_inv_2 in Ht.
      unfold held_after; simpl. by apply (IH _ _ _ _ Hm Ht).
Qed.

(** The events of one [release] name what the object holds. *)
Lemma release_matched (this : CollationElements) (b : bool) (env : JNIEnv) :
  coherent this ->
  exists evs,
    (release this b env).2 = env ++ evs
    /\ releases_match (mChars this, mString this) evs = true
    /\ held_after (mChars this, mString this) evs = (None, None).
Proof.
  intros Hco. destruct this as [el str ch]. unfold coherent in Hco.
  unfold release; simpl in *.
  destruct ch as [c|]; [|rewrite (Hco eq_refl)];
    destruct el as [e|], b; simpl;
    rewrite <- ?app_assoc; eexists;
    (split; [try reflexivity; symmetry; apply app_nil_r|]);
    simpl; rewrite ?bool_decide_eq_true_2 by done; done.
Qed.

Lemma start_matched (rt : Runtime) (this : CollationElements) (s : jstring)
    (c : UCollator) (env : JNIEnv) :
  coherent this ->
  exists evs,
    (start rt this s c env).2 = env ++ evs
    /\ releases_match (mChars this, mString this) evs = true
    /\ held_after (mChars this, mString this) evs
       = (mChars (start rt this s c env).1.2,
          mString (start rt this s c env).1.2)
    /\ coherent (start rt this s c env).1.2.
Proof.
  intros Hco.
  destruct (release_matched this false env Hco) as (evs & Hlog & Hm & Hh).
  destruct (GetStringChars rt (release this false env).2 s) as [chars|] eqn:Hpin.
  - rewrite (start_pinned rt this s c env chars Hpin), Hlog.
    destruct (mElements this) as [e|]; simpl;
      rewrite <- !app_assoc; (eexists; split; [reflexivity|]);
      rewrite releases_match_app, held_after_app, Hm, Hh;
      destruct (NewGlobalRef rt _ s); simpl; done.
  - rewrite (start_unpinned rt this s c env Hpin), Hlog; simpl.
    rewrite <- app_assoc. eexists; split; [reflexivity|].
    rewrite releases_match_app, held_after_app, Hm, Hh. simpl.
    unfold coherent in *; simpl.
    destruct (mChars this); [done|]. by rewrite (Hco eq_refl).
Qed.

(** X3.  Over the whole life of an iterator every ReleaseStringChars
    names the array that the last successful GetStringChars pinned and
    the reference that NewGlobalRef gave with it: nothing is released
    that is not in hand. *)
Theorem releases_what_was_acquired (rt : Runtime) (p : positive)
    (ops : list op) (w : World) (t : JNIEnv) (g : option jstring)
    (c : list jchar) :
  exec_ops rt p ops (just_constructed p) = Some w ->
  (t ++ [EReleaseStringChars g c]) `prefix_of` jni w ->
  held_after (None, None) t = (Some c, g).
Proof.
  intros Hex Ht.
  assert (Hinv : releases_match (None, None) (jni w) = true
                 /\ held_after (None, None) (jni w)
                    = match heap w !! p with
                      | Some this => (mChars this, mString this)
                      | None => (None, None)
                      end
                 /\ match heap w !! p with
                    | Some this => coherent this
                    | None => True
                    end).
  { apply (exec_ops_invariant rt p
      (fun o env =>
         releases_match (None, None) env = true
         /\ held_after (None, None) env
            = match o with
              | Some this => (mChars this, mString this)
              | None => (None, None)
              end
         /\ match o with Some this => coherent this | None => True end))
      with (ops := ops) (w := just_constructed p); [| | | |exact Hex].
    - intros o env evs Hevs (Hm & Hh & Hco).
      destruct (held_after_bookkeeping evs
                  (held_after (None, None) env) Hevs) as [Hm' Hh'].
      rewrite releases_match_app, held_after_app, Hm, Hm', Hh'. done.
    - intros this s c0 env (Hm & Hh & Hco).
      destruct (start_matched rt this s c0 env Hco)
        as (evs & -> & Hm' & Hh' & Hco').
      rewrite releases_match_app, held_after_app, Hm, Hh, Hm', Hh'. done.
    - intros this env (Hm & Hh & Hco).
      destruct (release_matched this true env Hco) as (evs & -> & Hm' & Hh').
      rewrite releases_match_app, held_after_app, Hm, Hh, Hm', Hh'. done.
    - unfold just_constructed; simpl. by rewrite lookup_singleton_eq. }
  destruct Hinv as (Hm & _).
  exact (releases_match_release _ _ _ _ _ Hm Ht).
Qed.

(** In the demo session the first release gives back the three
    letters pinned by the first start, through reference 1003. *)
Lemma releases_what_was_acquired_witness :
  held_after (None, None)
    [EGetStringChars 3 (Some [97; 97; 97]); ENewGlobalRef 3 (Some 1003);
     Eucol_openElements 4096 [97; 97; 97] 3 (Some 7%positive) U_ZERO_ERROR;
     EScopedStringChars 5 (Some [97; 97; 97; 97; 97])]
  = (Some [97; 97; 97], Some 1003).
Proof.
  destruct (exec_ops demo_rt 1 demo_ops (just_constructed 1)) as [w|] eqn:Hex;
    [|vm_compute in Hex; discriminate Hex].
  apply (releases_what_was_acquired demo_rt 1 demo_ops w _ _ _ Hex).
  vm_compute in Hex. inversion Hex; subst w; simpl.
  eexists. simpl. reflexivity.
Defined.

(** X4.  Giving the pin back is idempotent: after any [release], a
    further [release(env, false)] changes neither the object nor the
    log. *)
Theorem release_pin_is_idempotent (this : CollationElements) (b : bool)
    (env : JNIEnv) :
  release (release this b env).1 false (release this b env).2
  = release this b env.
Proof.
  unfold release.
  destruct this as [el str ch]; simpl.
  by destruct el, b, ch.
Qed.

(** ** Creating an iterator *)

Lemma operator_new_fresh (h : gmap positive CollationElements) :
  h !! operator_new h = None.
Proof. unfold operator_new. apply (not_elem_of_dom_1 (D := gset positive)). apply is_fresh. Qed.

Lemma release_new (env : JNIEnv) :
  release CollationElements_new false env = (CollationElements_new, env).
Proof. reflexivity. Qed.

(** X5.  getCollationElementIterator either answers a handle and
    adds one object, or answers -1 or 0 and leaves the objects as they
    were.  The handle is positive, so it is neither failure value; it
    is the address of no object that was live before; and the object
    behind it holds a pin. *)
Theorem getCollationElementIterator_outcome (rt : Runtime) (address : jlong)
    (javaSource : jstring) (w : World) :
  let r := NativeCollation_getCollationElementIterator rt address javaSource w in
  (exists p ce,
     r.1 = Zpos p /\ heap w !! p = None
     /\ heap r.2 = <[p := ce]> (heap w) /\ pin_count ce = 1)
  \/ ((r.1 = -1 \/ r.1 = 0) /\ heap r.2 = heap w).
Proof.
  unfold NativeCollation_getCollationElementIterator.
  destruct (ScopedStringChars_get rt (jni w) javaSource) as [text|];
    [|right; simpl; auto].
  set (env1 := (jni w ++ [EScopedStringChars javaSource (Some text)])
               ++ [Enew_CollationElements (operator_new (heap w))]).
  destruct (GetStringChars rt env1 javaSource) as [chars|] eqn:Hpin.
  - rewrite (start_pinned rt CollationElements_new javaSource
               (toCollator address) env1 chars Hpin). simpl.
    destruct (ucol_openElements rt _ (toCollator address) chars _)
      as [e status]; simpl.
    destruct (decide (status = U_ZERO_ERROR)); simpl.
    + left. eexists. eexists. split; [reflexivity|].
      split; [apply operator_new_fresh|]. split; reflexivity.
    + right. auto.
  - rewrite (start_unpinned rt CollationElements_new javaSource
               (toCollator address) env1 Hpin). simpl.
    right. auto.
Qed.

(** X6.  When ucol_openElements reports a failure, the iterator that
    getCollationElementIterator had constructed is deleted without a
    release: the answer is 0, no object is added, and the array that
    [start] pinned (and the global reference, if one was given) stays
    acquired in the log. *)
Theorem getCollationElementIterator_leaks_pin (rt : Runtime)
    (address : jlong) (javaSource : jstring) (w : World)
    (text chars : list jchar) :
  ScopedStringChars_get rt (jni w) javaSource = Some text ->
  let env1 := jni w ++ [EScopedStringChars javaSource (Some text);
                        Enew_CollationElements (operator_new (heap w))] in
  GetStringChars rt env1 javaSource = Some chars ->
  let env2 := env1 ++ [EGetStringChars javaSource (Some chars)] in
  let ref := NewGlobalRef rt env2 javaSource in
  let env3 := env2 ++ [ENewGlobalRef javaSource ref] in
  (ucol_openElements rt env3 (toCollator address) chars
     (GetStringLength rt javaSource)).2 <> U_ZERO_ERROR ->
  let r := NativeCollation_getCollationElementIterator rt address javaSource w in
  r.1 = 0
  /\ heap r.2 = heap w
  /\ pins_held (jni r.2) = pins_held (jni w) + 1
  /\ refs_held (jni r.2)
     = refs_held (jni w) + match ref with Some _ => 1 | None => 0 end.
Proof.
  intros Hsrc env1 Hpin env2 ref env3 Hstatus.
  unfold NativeCollation_getCollationElementIterator. rewrite Hsrc.
  rewrite <- app_assoc; simpl. fold env1.
  pose proof (start_pinned rt CollationElements_new javaSource
                (toCollator address) env1 chars) as Hstart.
  simpl in Hstart. rewrite (Hstart Hpin). fold env2 ref env3. simpl.
  rewrite decide_False by done. simpl.
  split; [reflexivity|]. split; [reflexivity|].
  unfold env3, env2, env1, pins_held, refs_held.
  rewrite !balance_app. simpl.
  destruct (ucol_openElements rt _ (toCollator address) chars _) as [e st].
  destruct ref; simpl; lia.
Qed.

Lemma getCollationElementIterator_leaks_pin_witness :
  (NativeCollation_getCollationElementIterator demo_rt 0 3 empty_world).1 = 0
  /\ pins_held
       (jni (NativeCollation_getCollationElementIterator demo_rt 0 3
               empty_world).2) = 1
  /\ refs_held
       (jni (NativeCollation_getCollationElementIterator demo_rt 0 3
               empty_world).2) = 1.
Proof.
  destruct (getCollationElementIterator_leaks_pin demo_rt 0 3 empty_world
              [97; 97; 97] [97; 97; 97] eq_refl eq_refl)
    as (Hr & _ & Hp & Hg).
  { vm_compute. discriminate. }
  exact (conj Hr (conj Hp Hg)).
Defined.

(** ** Several iterators, and a rebind that cannot pin *)

Lemma exec_ops_frame (rt : Runtime) (p q : positive)
    (ops : list op) : forall w w',
  p <> q ->
  exec_ops rt p ops w = Some w' ->
  heap w' !! q = heap w !! q.
Proof.
  induction ops as [|o ops IH]; intros w w' Hne Hex; simpl in Hex.
  { by inversion Hex. }
  destruct (exec_op rt p o w) as [w1|] eqn:Hop; [|done]. simpl in Hex.
  rewrite (IH w1 w' Hne Hex). clear IH Hex.
  destruct o as [s c|s|]; simpl in Hop.
  - destruct (heap w !! p) as [this|]; [|done]. simpl in Hop.
    destruct (start rt this s c (jni w)) as [[st this'] env'].
    inversion Hop; subst; simpl. by rewrite lookup_insert_ne.
  - unfold NativeCollation_setText in Hop.
    destruct (ScopedStringChars_get rt (jni w) s) as [src|].
    + simpl in Hop. destruct (heap w !! p) as [this|]; [|done]. simpl in Hop.
      destruct (start rt this s 0 _) as [[st this'] env'].
      inversion Hop; subst; simpl. by rewrite lookup_insert_ne.
    + by inversion Hop; subst.
  - unfold NativeCollation_closeElements in Hop. simpl in Hop.
    destruct (heap w !! p) as [this|]; [|done]. simpl in Hop.
    destruct (release this true (jni w)) as [this' env'].
    inversion Hop; subst; simpl. by rewrite lookup_delete_ne.
Qed.

Lemma holds_from_bookkeeping (P R E : Z) (o : option CollationElements)
    (env evs : JNIEnv) :
  forallb bookkeeping evs = true ->
  holds_from P R E o env -> holds_from P R E o (env ++ evs).
Proof.
  intros Hevs (Hp & Hr & He & Hco).
  unfold holds_from, pins_held, refs_held, engines_held in *.
  rewrite !balance_app, Hp, Hr, He.
  rewrite !(balance_bookkeeping _ evs) by (done || by intros []).
  repeat split; (lia || done).
Qed.

Lemma holds_from_start (rt : Runtime) (P R E : Z) (this : CollationElements)
    (s : jstring) (c : UCollator) (env : JNIEnv) :
  holds_from P R E (Some this) env ->
  holds_from P R E (Some (start rt this s c env).1.2) (start rt this s c env).2.
Proof.
  intros (Hp & Hr & He & Hco).
  destruct (start_ledger rt this s c env Hco)
    as (evs & Hlog & _ & Hp' & Hr' & Hco').
  pose proof (start_engines rt this s c env) as He'.
  unfold holds_from. rewrite He', He.
  rewrite Hlog. destruct (held_app env evs) as [-> ->].
  repeat split; (lia || done).
Qed.

Lemma holds_from_close (P R E : Z) (this : CollationElements) (env : JNIEnv) :
  holds_from P R E (Some this) env ->
  holds_from P R E None (release this true env).2.
Proof.
  intros (Hp & Hr & He & Hco).
  destruct (release_ledger this true env Hco)
    as (evs & Hlog & _ & Hp' & Hr' & _).
  pose proof (release_engines this true env) as He'.
  unfold holds_from. rewrite He', He.
  rewrite Hlog. destruct (held_app env evs) as [-> ->].
  repeat split; (lia || done).
Qed.

(** X7.  The whole life of a handle leaves no trace in the
    resources: from the call of getCollationElementIterator that
    answered it, through any operations on it, to the close, the
    objects end as they were before, and the log holds as many pins,
    global references and engine iterators as before. *)
Theorem handle_life_leaves_no_trace (rt : Runtime) (address : jlong)
    (javaSource : jstring) (w w' : World) (p : positive) (ops : list op) :
  let r := NativeCollation_getCollationElementIterator rt address javaSource w in
  r.1 = Zpos p ->
  exec_ops rt p ops r.2 = Some w' ->
  heap w' !! p = None ->
  heap w' = heap w
  /\ pins_held (jni w') = pins_held (jni w)
  /\ refs_held (jni w') = refs_held (jni w)
  /\ engines_held (jni w') = engines_held (jni w).
Proof.
  intros r Hhandle Hex Hclosed.
  assert (Hcreated :
    heap w !! p = None
    /\ (forall q, p <> q -> heap r.2 !! q = heap w !! q)
    /\ holds_from (pins_held (jni w)) (refs_held (jni w))
         (engines_held (jni w)) (heap r.2 !! p) (jni r.2)).
  { subst r. revert Hhandle.
    unfold NativeCollation_getCollationElementIterator.
    destruct (ScopedStringChars_get rt (jni w) javaSource) as [text|];
      [|simpl; discriminate].
    rewrite <- app_assoc; simpl.
    set (env1 := jni w ++ [EScopedStringChars javaSource (Some text);
                           Enew_CollationElements (operator_new (heap w))]).
    assert (H0 : holds_from (pins_held (jni w)) (refs_held (jni w))
                   (engines_held (jni w)) (Some CollationElements_new) env1).
    { apply holds_from_bookkeeping; [done|].
      unfold holds_from, pin_count, ref_count, engine_count; simpl.
      repeat split; (lia || done). }
    apply (holds_from_start rt _ _ _ _ javaSource (toCollator address)) in H0.
    destruct (start rt CollationElements_new javaSource (toCollator address)
                env1) as [[status ce] env2]; simpl in *.
    destruct (decide (status = U_ZERO_ERROR)); simpl; [|discriminate].
    intros [= <-]. split; [apply operator_new_fresh|].
    split; [intros q Hq; by rewrite lookup_insert_ne|].
    rewrite lookup_insert_eq, <- app_assoc.
    apply holds_from_bookkeeping; [reflexivity|exact H0]. }
  destruct Hcreated as (Hfresh & Hothers & Hheld).
  pose proof (exec_ops_invariant rt p
    (holds_from (pins_held (jni w)) (refs_held (jni w))
       (engines_held (jni w)))
    ltac:(intros; by apply holds_from_bookkeeping)
    ltac:(intros; by apply holds_from_start)
    ltac:(intros; by apply holds_from_close)
    ops r.2 w' Hheld Hex) as Hend.
  rewrite Hclosed in Hend. destruct Hend as (Hp & Hr & He & _).
  split; [|repeat split; lia].
  apply map_eq. intros q. destruct (decide (p = q)) as [<-|Hne].
  - by rewrite Hclosed, Hfresh.
  - rewrite (exec_ops_frame rt p q ops r.2 w' Hne Hex). by apply Hothers.
Qed.

Lemma handle_life_leaves_no_trace_witness :
  exists w',
    (NativeCollation_getCollationElementIterator demo_rt 4096 3
       empty_world).1 = 1
    /\ exec_ops demo_rt 1 [OpSetText 5; OpStart 0 0; OpSetText 2; OpClose]
         (NativeCollation_getCollationElementIterator demo_rt 4096 3
            empty_world).2 = Some w'
    /\ heap w' = ∅
    /\ pins_held (jni w') = 0
    /\ refs_held (jni w') = 0
    /\ engines_held (jni w') = 0.
Proof.
  eexists. split; [vm_compute; reflexivity|].
  split; [vm_compute; reflexivity|].
  apply (handle_life_leaves_no_trace demo_rt 4096 3 empty_world _ 1
           [OpSetText 5; OpStart 0 0; OpSetText 2; OpClose]);
    vm_compute; reflexivity.
Defined.

(** X8.  The operations on one iterator leave every other object
    where it is and as it is. *)
Theorem other_iterators_untouched (rt : Runtime) (p q : positive)
    (ops : list op) (w w' : World) :
  p <> q ->
  exec_ops rt p ops w = Some w' ->
  heap w' !! q = heap w !! q.
Proof. apply exec_ops_frame. Qed.

Lemma other_iterators_untouched_witness :
  exists w',
    exec_ops demo_rt 1 [OpSetText 5; OpClose]
      {| heap := <[2%positive := CollationElements_new]> (heap demo_world);
         jni := [] |} = Some w'
    /\ heap w' !! 2%positive = Some CollationElements_new.
Proof.
  eexists. split; [vm_compute; reflexivity|].
  rewrite (other_iterators_untouched demo_rt 1 2 [OpSetText 5; OpClose]
             {| heap := <[2%positive := CollationElements_new]>
                          (heap demo_world);
                jni := [] |});
    [reflexivity|discriminate|vm_compute; reflexivity].
Defined.

(** X9.  setText with a string that a scoped read accepts but
    GetStringChars cannot pin: the status U_ILLEGAL_ARGUMENT_ERROR is
    passed to maybeThrowIcuException, and the iterator is left with
    the engine iterator it had, still answered by [get], and with no
    string pinned. *)
Theorem setText_pin_failure (rt : Runtime) (p : positive) (w : World)
    (this : CollationElements) (e : UCollationElements)
    (javaSource : jstring) (text : list jchar) :
  heap w !! p = Some this -> get this = Some e ->
  ScopedStringChars_get rt (jni w) javaSource = Some text ->
  let env1 := jni w ++ [EScopedStringChars javaSource (Some text)] in
  GetStringChars rt (release this false env1).2 javaSource = None ->
  exists w' this',
    NativeCollation_setText rt (Zpos p) javaSource w = Some w'
    /\ heap w' !! p = Some this'
    /\ get this' = Some e
    /\ mChars this' = None
    /\ jni w'
       = (release this false env1).2
         ++ [EGetStringChars javaSource None;
             EmaybeThrowIcuException "ucol_setText" U_ILLEGAL_ARGUMENT_ERROR;
             EScopedStringChars_dtor javaSource].
Proof.
  intros Hlive He Hsrc env1 Hpin.
  unfold NativeCollation_setText. rewrite Hsrc; simpl. rewrite Hlive; simpl.
  fold env1. rewrite (start_unpinned rt this javaSource 0 env1 Hpin).
  eexists. eexists. split; [reflexivity|]. simpl.
  rewrite lookup_insert_eq. split; [reflexivity|]. simpl.
  split; [exact He|]. split; [reflexivity|]. by rewrite <- app_assoc.
Qed.

Lemma setText_pin_failure_witness :
  exists w' this',
    NativeCollation_setText flaky_rt 1 5 demo_world = Some w'
    /\ heap w' !! 1%positive = Some this'
    /\ get this' = Some 7%positive
    /\ mChars this' = None
    /\ jni w'
       = [EScopedStringChars 5 (Some [97; 97; 97; 97; 97]);
          EReleaseStringChars (Some 1003) [97; 97; 97];
          EDeleteGlobalRef (Some 1003);
          EGetStringChars 5 None;
          EmaybeThrowIcuException "ucol_setText" U_ILLEGAL_ARGUMENT_ERROR;
          EScopedStringChars_dtor 5].
Proof.
  exact (setText_pin_failure flaky_rt 1%positive demo_world demo_bound
           7%positive 5
           [97; 97; 97; 97; 97] eq_refl eq_refl eq_refl eq_refl).
Defined.
